(** * ULTIMA-PRIME CI diagnosis scanner: [tools/ultimaprime/scan_ci.py]

    A shallow embedding of the scanner and the properties of its report.

    - Python [str] values are lists of Unicode code points.
    - [re.finditer] is embedded as a backtracking matcher over the opcodes
      that CPython's [sre] compiler emits for the five patterns of
      [parse_output] (single-character sets, greedy and lazy repetition of
      one set, group marks), and a left-to-right scanner above it.
    - Issue dictionaries are insertion-ordered association lists.
    - [main] is a state-passing function over a [world]: the file system as
      a finite map from paths to text, the two standard streams, and what
      the environment answers (the pytest subprocess, the clock). *)

From Stdlib Require Import ZArith NArith Lia.
From Stdlib Require Import Strings.String Strings.Ascii Numbers.DecimalString.
From stdpp Require Import gmap strings list.

Local Open Scope string_scope.
Local Open Scope list_scope.
Local Open Scope nat_scope.

(** ** Text *)

(** A character is a Unicode code point, a [str] is a Python string. *)
Definition char := N.
Definition str := list char.

(** [utf8 need acc bs] decodes the UTF-8 bytes [bs]; [need] continuation
    bytes are still owed to the code point accumulated in [acc]. *)
Fixpoint utf8 (need : nat) (acc : N) (bs : list N) : str :=
  match bs with
  | [] => []
  | b :: bs' =>
      match need with
      | O =>
          if (b <? 128)%N then b :: utf8 0 0%N bs'
          else if (b <? 224)%N then utf8 1 (N.land b 31) bs'
          else if (b <? 240)%N then utf8 2 (N.land b 15) bs'
          else utf8 3 (N.land b 7) bs'
      | S O => (acc * 64 + N.land b 63)%N :: utf8 0 0%N bs'
      | S n => utf8 n (acc * 64 + N.land b 63)%N bs'
      end
  end.

(** The code points of a literal of the source file (which is UTF-8). *)
Definition codes (s : string) : str :=
  utf8 0 0%N (map N_of_ascii (list_ascii_of_string s)).

Definition NEWLINE : char := 10%N.

(** [str.isspace] of one character: the white space of the Unicode
    character database, which is what [str.strip()] removes. *)
Definition isspace (c : char) : bool :=
  ((9 <=? c) && (c <=? 13) || (28 <=? c) && (c <=? 32)
   || (c =? 133) || (c =? 160) || (c =? 5760)
   || (8192 <=? c) && (c <=? 8202)
   || (c =? 8232) || (c =? 8233) || (c =? 8239) || (c =? 8287)
   || (c =? 12288))%N.

Fixpoint lstrip (s : str) : str :=
  match s with
  | c :: s' => if isspace c then lstrip s' else s
  | [] => []
  end.

Definition rstrip (s : str) : str := rev (lstrip (rev s)).

(** [s.strip()] *)
Definition strip (s : str) : str := rstrip (lstrip s).

(** An index of a slice, as Python resolves it against a length [n]:
    a negative index counts from the end, and the result is clamped
    to [0, n]. *)
Definition slice_index (n i : Z) : Z :=
  if (i <? 0)%Z then Z.max 0 (i + n) else Z.min i n.

(** [s[lo:hi]] *)
Definition slice (s : str) (lo hi : Z) : str :=
  let n := Z.of_nat (length s) in
  let a := slice_index n lo in
  let b := slice_index n hi in
  take (Z.to_nat (b - a)) (drop (Z.to_nat a) s).

(** Decimal rendering of an integer, [str(n)]. *)
Definition str_of_Z (z : Z) : str :=
  codes (NilZero.string_of_int (Z.to_int z)).

(** ** Dictionaries *)

(** A [dict] with string keys, in insertion order. *)
Definition dict (V : Type) := list (string * V).

(** [d.get(k)] *)
Fixpoint dict_get {V} (d : dict V) (k : string) : option V :=
  match d with
  | [] => None
  | (k', v) :: d' => if String.eqb k' k then Some v else dict_get d' k
  end.

(** [d.values()] *)
Definition dict_values {V} (d : dict V) : list V := map snd d.

(** An issue record: every value the scanner stores is a string. *)
Definition issue := dict str.

(** ** The report *)

(** The dictionary built by [main]. *)
Record report := {
  timestamp : str;
  return_code : Z;
  total_issues : nat;
  issues : list issue;
  by_severity : dict nat
}.

(** [len([i for i in issues if i.get("severity") == sev])] *)
Definition severity_count (l : list issue) (sev : string) : nat :=
  length (filter (fun i : issue => dict_get i "severity" = Some (codes sev)) l).

Definition make_report (now : str) (rc : Z) (l : list issue) : report :=
  {| timestamp := now;
     return_code := rc;
     total_issues := length l;
     issues := l;
     by_severity := [ ("HIGH", severity_count l "HIGH");
                      ("MEDIUM", severity_count l "MEDIUM");
                      ("LOW", severity_count l "LOW") ] |}.

(** [sum(d.values())] *)
Definition sum_values (d : dict nat) : nat := foldr Nat.add 0 (dict_values d).

(** *** The machine document *)

#[warnings="-register-all"]
Inductive json :=
  | JStr (s : str)
  | JInt (z : Z)
  | JList (l : list json)
  | JDict (d : list (string * json)).

Definition issue_json (i : issue) : json :=
  JDict (map (fun kv => (fst kv, JStr (snd kv))) i).

Definition report_json (r : report) : json :=
  JDict [ ("timestamp", JStr (timestamp r));
          ("return_code", JInt (return_code r));
          ("total_issues", JInt (Z.of_nat (total_issues r)));
          ("issues", JList (map issue_json (issues r)));
          ("by_severity",
            JDict (map (fun kv => (fst kv, JInt (Z.of_nat (snd kv))))
                       (by_severity r))) ].

Definition hex_digit (n : N) : char :=
  if (n <? 10)%N then (48 + n)%N else (87 + n)%N.

(** One character inside a JSON string, with [ensure_ascii=False]. *)
Definition json_escape (c : char) : str :=
  if (c =? 34)%N then [92%N; 34%N]
  else if (c =? 92)%N then codes "\\"
  else if (c =? 10)%N then codes "\n"
  else if (c =? 13)%N then codes "\r"
  else if (c =? 9)%N then codes "\t"
  else if (c =? 8)%N then codes "\b"
  else if (c =? 12)%N then codes "\f"
  else if (c <? 32)%N then codes "\u00" ++ [hex_digit (c / 16); hex_digit (c mod 16)]
  else [c].

Definition json_string (s : str) : str :=
  [34%N] ++ concat (map json_escape s) ++ [34%N].

(** [sep.join(parts)] *)
Fixpoint join (sep : str) (parts : list str) : str :=
  match parts with
  | [] => []
  | [x] => x
  | x :: rest => x ++ sep ++ join sep rest
  end.

Definition newline_indent (level : nat) : str :=
  NEWLINE :: concat (replicate level (codes "  ")).

(** [json.dumps(j, ensure_ascii=False, indent=2)] at nesting [level]. *)
Fixpoint dumps (level : nat) (j : json) : str :=
  match j with
  | JStr s => json_string s
  | JInt z => str_of_Z z
  | JList [] => codes "[]"
  | JList l =>
      codes "[" ++ newline_indent (S level)
      ++ join (codes "," ++ newline_indent (S level)) (map (dumps (S level)) l)
      ++ newline_indent level ++ codes "]"
  | JDict [] => codes "{}"
  | JDict d =>
      codes "{" ++ newline_indent (S level)
      ++ join (codes "," ++ newline_indent (S level))
           (map (fun kv => let '(k, v) := kv in
                   json_string (codes k) ++ codes ": " ++ dumps (S level) v) d)
      ++ newline_indent level ++ codes "}"
  end.

Definition json_dumps (j : json) : str := dumps 0 j.

(** *** The human document *)

(** [s.split("\n")] *)
Fixpoint split_lines (s : str) : list str :=
  match s with
  | [] => [[]]
  | c :: s' =>
      if (c =? NEWLINE)%N then [] :: split_lines s'
      else match split_lines s' with
           | l :: ls => (c :: l) :: ls
           | [] => [[c]]
           end
  end.

Definition BORDER : str := concat (replicate 70 (codes "═")).

(** The lines of one issue, numbered [n]. *)
Definition issue_lines (n : nat) (i : issue) : list str :=
  [ [];
    codes "[" ++ str_of_Z (Z.of_nat n) ++ codes "] "
      ++ default (codes "Unknown") (dict_get i "type") ++ codes " — "
      ++ default (codes "N/A") (dict_get i "severity");
    codes "    Паттерн: "
      ++ default (default (codes "N/A") (dict_get i "imported_name"))
                 (dict_get i "pattern");
    codes "    Решение: "
      ++ default (codes "Manual review needed") (dict_get i "fix");
    codes "    Контекст:" ]
  ++ map (fun line => codes "      " ++ line)
         (take 5 (split_lines (default [] (dict_get i "context")))).

(** [enumerate(l, n)], each issue rendered. *)
Fixpoint numbered_issue_lines (n : nat) (l : list issue) : list str :=
  match l with
  | [] => []
  | i :: l' => issue_lines n i ++ numbered_issue_lines (S n) l'
  end.

Definition txt_lines (r : report) (rc : Z) : list str :=
  [ BORDER;
    codes "ULTIMA-PRIME CI DIAGNOSTIC REPORT";
    codes "Время: " ++ timestamp r;
    codes "Return code: " ++ str_of_Z rc;
    BORDER;
    [];
    codes "КРИТИЧНЫЕ (HIGH):   "
      ++ str_of_Z (Z.of_nat (default 0 (dict_get (by_severity r) "HIGH")));
    codes "СРЕДНИЕ (MEDIUM):   "
      ++ str_of_Z (Z.of_nat (default 0 (dict_get (by_severity r) "MEDIUM")));
    codes "НИЗКИЕ (LOW):       "
      ++ str_of_Z (Z.of_nat (default 0 (dict_get (by_severity r) "LOW")));
    codes "ВСЕГО:              " ++ str_of_Z (Z.of_nat (total_issues r));
    [];
    BORDER ]
  ++ numbered_issue_lines 1 (issues r).

(** ** The environment of [main] *)

(** Command-line arguments, as [argparse] delivers them. *)
Record args := {
  run_pytest : bool;             (* --run-pytest *)
  pytest_log : option string     (* --pytest-log PATH *)
}.

(** What [main] reads and changes. Directory creation and file writes are
    taken to succeed. *)
Record world := {
  ROOT : string;                 (* two levels above the script *)
  files : gmap string str;       (* the text files, by path *)
  stdout : list str;             (* what was printed, one entry per call *)
  stderr : list str;
  pytest : option (Z * str);     (* return code and output of the pytest
                                    subprocess; None: it cannot be started *)
  utcnow : str                   (* datetime.utcnow().isoformat() *)
}.

(** How an invocation ends: [main] returns its status, which the script
    hands to [sys.exit]; or [sys.exit] is called inside [main]; or an
    exception is not caught. *)
Inductive outcome :=
  | Returned (status : Z)
  | SysExit (status : Z)
  | Uncaught (exception : string).

Definition print (line : str) (w : world) : world :=
  {| ROOT := ROOT w; files := files w; stdout := stdout w ++ [line];
     stderr := stderr w; pytest := pytest w; utcnow := utcnow w |}.

Definition print_stderr (line : str) (w : world) : world :=
  {| ROOT := ROOT w; files := files w; stdout := stdout w;
     stderr := stderr w ++ [line]; pytest := pytest w; utcnow := utcnow w |}.

(** [pathlib.Path(path).write_text(content)] *)
Definition write_text (path : string) (content : str) (w : world) : world :=
  {| ROOT := ROOT w; files := <[path := content]> (files w);
     stdout := stdout w; stderr := stderr w; pytest := pytest w;
     utcnow := utcnow w |}.

(** [run_pytest_and_capture()] *)
Definition run_pytest_and_capture (w : world) : option (Z * str) * world :=
  let cmd := [codes "pytest"; codes "-v"; codes "--tb=short";
              codes "--capture=no"; codes "--maxfail=3"] in
  let w := print (codes "[ULTIMA] Запуск: " ++ join (codes " ") cmd) w in
  (pytest w, w).

(** ** The regular expression engine *)

(** Stand-ins for the two Unicode tables that leave every character
    outside ASCII alone; they serve to run the scanner on ASCII logs. *)
Definition plain_isalnum (c : N) : bool := false.
Definition plain_tolower (c : N) : N := c.

Section Engine.

(** The Unicode character database is not part of the program. Its two
    tables that the patterns consult outside ASCII are parameters: which
    code points are alphanumeric ([str.isalnum]) and the simple lower-case
    mapping. *)
Variable unicode_isalnum : char -> bool.
Variable unicode_tolower : char -> char.

Definition ascii_isupper (c : char) : bool := ((65 <=? c) && (c <=? 90))%N.
Definition ascii_islower (c : char) : bool := ((97 <=? c) && (c <=? 122))%N.
Definition ascii_isdigit (c : char) : bool := ((48 <=? c) && (c <=? 57))%N.

(** [\w] on a [str] pattern: alphanumeric or the underscore. *)
Definition isword (c : char) : bool :=
  if (c <? 128)%N
  then ascii_isupper c || ascii_islower c || ascii_isdigit c || (c =? 95)%N
  else unicode_isalnum c.

(** Lower-casing inside ASCII. *)
Definition ascii_lower (c : char) : char :=
  if ascii_isupper c then (c + 32)%N else c.

(** The lower-casing [sre] applies to the subject under [re.IGNORECASE]. *)
Definition lower_unicode (c : char) : char :=
  if (c <? 128)%N then ascii_lower c else unicode_tolower c.

(** A set of characters, matched against one character of the subject. *)
Inductive charset :=
  | Literal (c : char)              (* the character itself *)
  | NotLiteral (c : char)           (* [^c] *)
  | InSet (cs : list char)          (* [abc] *)
  | Any                             (* . (no DOTALL): all but the newline *)
  | CategoryWord                    (* \w *)
  | LiteralUniIgnore (lo : char)    (* a cased literal under IGNORECASE *)
  | InUniIgnore (cs : list char).   (* the same, with its equivalents *)

Definition charset_match (cs : charset) (ch : char) : bool :=
  match cs with
  | Literal c => (ch =? c)%N
  | NotLiteral c => negb (ch =? c)%N
  | InSet l => existsb (N.eqb ch) l
  | Any => negb (ch =? NEWLINE)%N
  | CategoryWord => isword ch
  | LiteralUniIgnore lo => (lower_unicode ch =? lo)%N
  | InUniIgnore l => existsb (N.eqb (lower_unicode ch)) l
  end.

(** The operations of a compiled pattern, matched in sequence. *)
Inductive opcode :=
  | One (cs : charset)                  (* exactly one character *)
  | MaxRepeatOne (lo : nat) (cs : charset)   (* cs{lo,}  greedy *)
  | MinRepeatOne (lo : nat) (cs : charset)   (* cs{lo,}? lazy *)
  | Mark (i : nat).       (* group g opens at mark 2g-2, closes at 2g-1 *)

Definition pattern := list opcode.

(** Group marks: the latest position recorded for a mark comes first. *)
Definition marks := list (nat * nat).

Fixpoint mark_get (mk : marks) (i : nat) : option nat :=
  match mk with
  | [] => None
  | (j, p) :: mk' => if Nat.eqb j i then Some p else mark_get mk' i
  end.

(** What is left of the pattern after a repetition, as a function of the
    position, the rest of the subject and the marks. *)
Definition cont := nat -> str -> marks -> option (nat * marks).

(** Greedy repetition: take as many characters of the set as there are,
    then give them back one at a time until the rest matches. *)
Fixpoint max_repeat (cs : charset) (lo : nat) (k : cont)
    (pos : nat) (s : str) (mk : marks) : option (nat * marks) :=
  let stop := if Nat.eqb lo 0 then k pos s mk else None in
  match s with
  | ch :: s' =>
      if charset_match cs ch then
        match max_repeat cs (pred lo) k (S pos) s' mk with
        | Some r => Some r
        | None => stop
        end
      else stop
  | [] => stop
  end.

(** Lazy repetition: take the minimum, then one more character each time
    the rest fails to match. *)
Fixpoint min_repeat (cs : charset) (lo : nat) (k : cont)
    (pos : nat) (s : str) (mk : marks) {struct s} : option (nat * marks) :=
  let more :=
    match s with
    | ch :: s' =>
        if charset_match cs ch then min_repeat cs (pred lo) k (S pos) s' mk
        else None
    | [] => None
    end in
  if Nat.eqb lo 0 then
    match k pos s mk with
    | Some r => Some r
    | None => more
    end
  else more.

(** [sre_match p pos s mk]: match [p] against the subject from offset
    [pos], where [s] is the subject from [pos] on. The result is the
    offset where the match ends and the group marks. *)
Fixpoint sre_match (p : pattern) : cont :=
  fun pos s mk =>
  match p with
  | [] => Some (pos, mk)
  | One cs :: p' =>
      match s with
      | ch :: s' =>
          if charset_match cs ch then sre_match p' (S pos) s' mk else None
      | [] => None
      end
  | MaxRepeatOne lo cs :: p' => max_repeat cs lo (sre_match p') pos s mk
  | MinRepeatOne lo cs :: p' => min_repeat cs lo (sre_match p') pos s mk
  | Mark i :: p' => sre_match p' pos s ((i, pos) :: mk)
  end.

(** A match object. *)
Record Match := { m_start : nat; m_end : nat; m_marks : marks }.

(** [m.group(g)] on the subject [text], for [g >= 1]. *)
Definition group (text : str) (m : Match) (g : nat) : option str :=
  match mark_get (m_marks m) (2 * g - 2), mark_get (m_marks m) (2 * g - 1) with
  | Some a, Some b => Some (take (b - a) (drop a text))
  | _, _ => None
  end.

(** The scanner behind [re.finditer]: [s] is the subject from offset
    [pos] on, and [inside] counts the characters from [pos] that still
    belong to the match reported last. A search is tried at every offset
    outside a reported match, the end of the subject included; after an
    empty match the scanner moves one character on. *)
Fixpoint scan (p : pattern) (pos : nat) (s : str) (inside : nat) : list Match :=
  match inside with
  | S n =>
      match s with
      | [] => []
      | _ :: s' => scan p (S pos) s' n
      end
  | O =>
      match sre_match p pos s [] with
      | Some (e, mk) =>
          {| m_start := pos; m_end := e; m_marks := mk |} ::
          match s with
          | [] => []
          | _ :: s' => scan p (S pos) s' (e - pos - 1)
          end
      | None =>
          match s with
          | [] => []
          | _ :: s' => scan p (S pos) s' 0
          end
      end
  end.

(** [re.finditer(p, text)], as the list of the matches it yields. *)
Definition finditer (p : pattern) (text : str) : list Match := scan p 0 text 0.

(** *** Compiling the patterns *)

(** A run of literal characters. *)
Definition lit (s : string) : pattern := map (fun c => One (Literal c)) (codes s).

(** The other characters that [sre] lets an ASCII letter match under
    IGNORECASE besides its two cases: the dotless i and the long s. *)
Definition ignorecase_fixes (lo : char) : list char :=
  if (lo =? 105)%N then [305%N]
  else if (lo =? 115)%N then [383%N]
  else [].

(** One literal character of an ASCII pattern under [re.IGNORECASE]. *)
Definition literal_ignore (av : char) : opcode :=
  if ascii_isupper av || ascii_islower av then
    let lo := ascii_lower av in
    match ignorecase_fixes lo with
    | [] => One (LiteralUniIgnore lo)
    | fixes => One (InUniIgnore (lo :: fixes))
    end
  else One (Literal av).

Definition lit_ignore (s : string) : pattern := map literal_ignore (codes s).

Definition QUOTE : char := 39%N.

Definition OPTIONAL_ERROR : string :=
  "NameError: name 'Optional' is not defined".

(** r"NameError: name 'Optional' is not defined.*?\n", re.IGNORECASE *)
Definition optional_re : pattern :=
  lit_ignore OPTIONAL_ERROR ++ [MinRepeatOne 0 Any; One (Literal NEWLINE)].

Definition RESTRICTED : string :=
  "ModuleNotFoundError: No module named 'RestrictedPython'".

(** r"ModuleNotFoundError: No module named 'RestrictedPython'" *)
Definition restricted_re : pattern := lit RESTRICTED.

(** r"Field\([^)]*regex=" *)
Definition pydantic_re : pattern :=
  lit "Field(" ++ [MaxRepeatOne 0 (NotLiteral 41%N)] ++ lit "regex=".

(** r"ERROR.*[Uu]nknown pytest\.mark\.(\w+)" *)
Definition marker_re : pattern :=
  lit "ERROR" ++ [MaxRepeatOne 0 Any; One (InSet [85%N; 117%N])]
  ++ lit "nknown pytest.mark."
  ++ [Mark 0; MaxRepeatOne 1 CategoryWord; Mark 1].

Definition IMPORT_PREFIX : string := "ImportError: cannot import name '".

(** r"ImportError: cannot import name '(\w+)' from '([^']+)'" *)
Definition import_re : pattern :=
  lit IMPORT_PREFIX
  ++ [Mark 0; MaxRepeatOne 1 CategoryWord; Mark 1] ++ lit "' from '"
  ++ [Mark 2; MaxRepeatOne 1 (NotLiteral QUOTE); Mark 3] ++ lit "'".

(** ** The scanner *)

(** [for m in ms: issues.append(f(m))] *)
Definition for_append {A B} (ms : list A) (f : A -> B) (issues : list B)
  : list B :=
  fold_left (fun issues m => issues ++ [f m]) ms issues.

(** A group of a match as a string. (A group that took no part in the
    match would be [None] in Python; the groups of [import_re] always take
    part, see [import_groups_set].) *)
Definition group_str (text : str) (m : Match) (g : nat) : str :=
  default [] (group text m g).

Definition parse_output (output : str) : list issue :=
  let issues : list issue := [] in
  (* Pattern 1: Missing Optional import *)
  let issues := for_append (finditer optional_re output) (fun m =>
    let context_start := Z.max 0 (Z.of_nat (m_start m) - 300) in
    let context := slice output context_start (Z.of_nat (m_end m) + 200) in
    [ ("type", codes "MissingOptionalImport");
      ("severity", codes "HIGH");
      ("pattern", codes OPTIONAL_ERROR);
      ("context", strip context);
      ("fix", codes "Добавить 'from typing import Optional' в импорты") ])
    issues in
  (* Pattern 2: RestrictedPython missing *)
  let issues := for_append (finditer restricted_re output) (fun m =>
    let context_start := Z.max 0 (Z.of_nat (m_start m) - 300) in
    let context := slice output context_start (Z.of_nat (m_end m) + 200) in
    [ ("type", codes "MissingDependency");
      ("dependency", codes "RestrictedPython");
      ("severity", codes "HIGH");
      ("pattern", codes RESTRICTED);
      ("context", strip context);
      ("fix", codes "Добавить 'RestrictedPython>=6.0' в requirements.txt или pyproject.toml") ])
    issues in
  (* Pattern 3: Pydantic v2 migration (regex -> pattern) *)
  let issues := for_append (finditer pydantic_re output) (fun m =>
    let context_start := Z.max 0 (Z.of_nat (m_start m) - 300) in
    let context := slice output context_start (Z.of_nat (m_end m) + 200) in
    [ ("type", codes "PydanticV2Migration");
      ("severity", codes "MEDIUM");
      ("pattern", codes "Field(..., regex=...)");
      ("context", strip context);
      ("fix", codes "Заменить 'regex=' на 'pattern=' (Pydantic v2)") ])
    issues in
  (* Pattern 4: Unknown pytest marker *)
  let issues := for_append (finditer marker_re output) (fun m =>
    let context_start := Z.max 0 (Z.of_nat (m_start m) - 200) in
    let context := slice output context_start (Z.of_nat (m_end m) + 200) in
    [ ("type", codes "UnknownPytestMarker");
      ("severity", codes "MEDIUM");
      ("context", strip context);
      ("fix", codes "Определить маркер в pytest.ini или conftest.py") ])
    issues in
  (* Pattern 5: Import errors *)
  let issues := for_append (finditer import_re output) (fun m =>
    let name := group_str output m 1 in
    let module := group_str output m 2 in
    [ ("type", codes "ImportError");
      ("severity", codes "HIGH");
      ("imported_name", name);
      ("from_module", module);
      ("context",
        strip (slice output (Z.max 0 (Z.of_nat (m_start m) - 200))
                            (Z.of_nat (m_end m) + 200)));
      ("fix", codes "Проверить экспорт '" ++ name
              ++ codes "' из модуля '" ++ module ++ codes "'") ])
    issues in
  issues.

(** ** The entry point *)

(** A path given on the command line counts when it is not empty. *)
Definition given (path : option string) : option string :=
  match path with
  | Some "" => None
  | other => other
  end.

Definition main (a : args) (w : world) : outcome * world :=
  (* Gather test output *)
  let gathered : outcome * world + Z * str * world :=
    if run_pytest a then
      match run_pytest_and_capture w with
      | (Some (rc, output), w) => inr (rc, output, w)
      | (None, w) => inl (Uncaught "FileNotFoundError", w)
      end
    else
      match given (pytest_log a) with
      | Some path =>
          match files w !! path with
          | Some output => inr (0%Z, output, w)
          | None =>
              inl (SysExit 1,
                   print_stderr (codes "[ERROR] Лог не найден: " ++ codes path) w)
          end
      | None =>
          inl (SysExit 2,
               print_stderr
                 (codes "[ERROR] Укажите --run-pytest или --pytest-log <path>") w)
      end in
  match gathered with
  | inl stopped => stopped
  | inr (rc, output, w) =>
      (* Parse issues *)
      let issues := parse_output output in
      (* Create report *)
      let report := make_report (utcnow w) rc issues in
      (* Save JSON report *)
      let out_dir := (ROOT w +:+ "/diagnostics")%string in
      let json_path := (out_dir +:+ "/report.json")%string in
      let w := write_text json_path (json_dumps (report_json report)) w in
      (* Save human-readable report *)
      let txt_path := (out_dir +:+ "/report.txt")%string in
      let w := write_text txt_path (join [NEWLINE] (txt_lines report rc)) w in
      (* Print summary *)
      let w := print (NEWLINE :: codes "✅ [ULTIMA] Диагностика завершена") w in
      let w := print (codes "📊 Найдено проблем: "
                      ++ str_of_Z (Z.of_nat (total_issues report))) w in
      let w := print (codes "📁 Отчёт сохранён:") w in
      let w := print (codes "   - JSON:  " ++ codes json_path) w in
      let w := print (codes "   - TXT:   " ++ codes txt_path) w in
      let w := print (NEWLINE :: codes "💡 Следующий шаг: python tools/ultimaprime/fix_optional_imports.py") w in
      (Returned (if Nat.eqb (length issues) 0 then 0 else 1), w)
  end.

(** ** Vocabulary of the properties *)

(** [sub] occurs in [text] as a contiguous piece. *)
Definition substring_of (sub text : str) : Prop :=
  ∃ before after, text = before ++ sub ++ after.

(** [needle] is written at the very start of [s]. *)
Fixpoint starts_with (needle s : str) : bool :=
  match needle, s with
  | [], _ => true
  | c :: needle', d :: s' => (d =? c)%N && starts_with needle' s'
  | _ :: _, [] => false
  end.

(** The number of offsets of [s] at which [needle] is written. *)
Fixpoint occurrences (needle s : str) : nat :=
  (if starts_with needle s then 1 else 0) +
  match s with
  | [] => 0
  | _ :: s' => occurrences needle s'
  end.

(** What the pattern does when tried at offset [q] of [text]. *)
Definition match_at (p : pattern) (text : str) (q : nat) : option (nat * marks) :=
  sre_match p q (drop q text) [].

(** Matches in scan order that do not overlap: each starts at or after
    [from], and the next one at or after its end and strictly after its
    start. *)
Fixpoint chain (from : nat) (ms : list Match) : Prop :=
  match ms with
  | [] => True
  | m :: ms' =>
      from ≤ m_start m ∧ m_start m ≤ m_end m ∧
      chain (Nat.max (m_end m) (S (m_start m))) ms'
  end.

(** [ms] is the list of all non-overlapping matches of [p] in [text], in
    the order of a scan from left to right: ordered and disjoint, each one
    what the pattern yields at its start, and every offset at which the
    pattern matches is the start of a listed match or inside one. *)
Definition all_matches (p : pattern) (text : str) (ms : list Match) : Prop :=
  chain 0 ms ∧
  Forall (fun m => m_end m ≤ length text ∧
                   match_at p text (m_start m) = Some (m_end m, m_marks m)) ms ∧
  ∀ q, q ≤ length text → match_at p text q ≠ None →
    ∃ m, m ∈ ms ∧ m_start m ≤ q ∧ (q < m_end m ∨ m_start m = q).

(** The detectors in the order in which [parse_output] runs them: the
    pattern, the kind it reports, and how many characters of context it
    keeps before a match. Every detector keeps 200 after it. *)
Definition registry : list (pattern * string * nat) :=
  [ (optional_re, "MissingOptionalImport", 300);
    (restricted_re, "MissingDependency", 300);
    (pydantic_re, "PydanticV2Migration", 300);
    (marker_re, "UnknownPytestMarker", 200);
    (import_re, "ImportError", 200) ].

(** The context window of a match, both ends clamped to the text. *)
Definition window (text : str) (before : nat) (m : Match) : str :=
  let a := m_start m - before in
  let b := Nat.min (m_end m + 200) (length text) in
  take (b - a) (drop a text).

(** Issue [i] is what detector [d] reports for its match [m]. *)
Definition reports (text : str) (d : pattern * string * nat)
    (m : Match) (i : issue) : Prop :=
  dict_get i "type" = Some (codes (d.1.2)) ∧
  dict_get i "context" = Some (strip (window text (d.2) m)).

(** *** Sample inputs *)

Definition FOO_IMPORT : string :=
  "ImportError: cannot import name 'Foo' from 'pkg.bar'".

(** Two import errors, the second written inside the module name of the
    first. *)
Definition nested_import_log : str :=
  codes "ImportError: cannot import name 'X' from 'ImportError: cannot import name 'Foo' from 'pkg.bar'".

(** The error line for Optional with no line break after it. *)
Definition unterminated_log : str := codes OPTIONAL_ERROR.

Definition marker_log : str := codes "ERROR: Unknown pytest.mark.slow".

(** What the scan of [marker_log] reports. *)
Definition marker_issue : issue :=
  [ ("type", codes "UnknownPytestMarker");
    ("severity", codes "MEDIUM");
    ("context", marker_log);
    ("fix", codes "Определить маркер в pytest.ini или conftest.py") ].

Definition sample_world (log : str) : world :=
  {| ROOT := "/repo"; files := {[ "pytest.log" := log ]};
     stdout := []; stderr := []; pytest := None;
     utcnow := codes "2024-01-01T00:00:00" |}.

(** *** The documents of an invocation *)

(** Where [main] writes the machine document and the human document. *)
Definition report_json_path (w : world) : string :=
  (ROOT w +:+ "/diagnostics") +:+ "/report.json".

Definition report_txt_path (w : world) : string :=
  (ROOT w +:+ "/diagnostics") +:+ "/report.txt".

(** The error line for Optional with its line break, and what the scan
    reports for it. *)
Definition optional_log : str := codes OPTIONAL_ERROR ++ [NEWLINE].

Definition optional_issue : issue :=
  [ ("type", codes "MissingOptionalImport");
    ("severity", codes "HIGH");
    ("pattern", codes OPTIONAL_ERROR);
    ("context", codes OPTIONAL_ERROR);
    ("fix", codes "Добавить 'from typing import Optional' в импорты") ].

(** What the scan of the sample import error reports. *)
Definition foo_import_issue : issue :=
  [ ("type", codes "ImportError");
    ("severity", codes "HIGH");
    ("imported_name", codes "Foo");
    ("from_module", codes "pkg.bar");
    ("context", codes FOO_IMPORT);
    ("fix", codes "Проверить экспорт 'Foo' из модуля 'pkg.bar'") ].


(** ** Adding the Optional import: [tools/ultimaprime/fix_optional_imports.py] *)

(** The characters that [\s] matches in a [str] pattern: those of
    [isspace]. *)
Definition SPACE_CHARS : list char :=
  [9; 10; 11; 12; 13; 28; 29; 30; 31; 32; 133; 160; 5760;
   8192; 8193; 8194; 8195; 8196; 8197; 8198; 8199; 8200; 8201; 8202;
   8232; 8233; 8239; 8287; 12288]%N.

(** r"\s*from\s+typing\s+import" *)
Definition typing_import_re : pattern :=
  [MaxRepeatOne 0 (InSet SPACE_CHARS)] ++ lit "from"
  ++ [MaxRepeatOne 1 (InSet SPACE_CHARS)] ++ lit "typing"
  ++ [MaxRepeatOne 1 (InSet SPACE_CHARS)] ++ lit "import".

(** [re.match(p, s)] as a truth value: a match at offset 0. *)
Definition re_match (p : pattern) (s : str) : bool :=
  match sre_match p 0 s [] with
  | Some _ => true
  | None => false
  end.

(** [needle in s] *)
Fixpoint contains (needle s : str) : bool :=
  starts_with needle s ||
  match s with
  | [] => false
  | _ :: s' => contains needle s'
  end.

(** [s.endswith(suffix)] *)
Definition endswith (s suffix : str) : bool :=
  starts_with (rev suffix) (rev s).

(** [s.replace(old, new)] for an [old] of one character. *)
Definition replace_char (s : str) (old : char) (new : str) : str :=
  concat (map (fun c => if (c =? old)%N then new else [c]) s).

Definition CLOSE_PAREN : char := 41%N.

(** The search for the closing parenthesis: [rest] is [lines[j:]], and
    the result is the [j] at which the [while] loop stops. *)
Fixpoint closing_paren_line (rest : list str) (j : nat) : nat :=
  match rest with
  | [] => j
  | l :: rest' =>
      if contains [CLOSE_PAREN] l then j else closing_paren_line rest' (S j)
  end.

(** Step 1 of [fix_imports], the loop over [enumerate(lines[:50])]:
    [todo] is what is left of [lines[:50]] from index [i] on. The result
    is what the loop returns, or [None] when it runs to its end. *)
Fixpoint add_to_typing_import (lines todo : list str) (i : nat)
  : option (str * bool) :=
  match todo with
  | [] => None
  | line :: todo' =>
      let next := add_to_typing_import lines todo' (S i) in
      if re_match typing_import_re line then
        if negb (contains (codes "Optional") line) then
          if endswith (rstrip line) [CLOSE_PAREN] then
            let j := closing_paren_line (drop (i + 1) lines) (i + 1) in
            match lines !! j with
            | Some lj =>
                if contains [CLOSE_PAREN] lj then
                  Some (join [NEWLINE]
                          (<[j := replace_char lj CLOSE_PAREN
                                    (codes ", Optional)")]> lines),
                        true)
                else next
            | None => next
            end
          else
            Some (join [NEWLINE]
                    (<[i := rstrip line ++ codes ", Optional"]> lines),
                  true)
        else next
      else next
  end.

(** Step 2 of [fix_imports], the loop that looks for the end of the
    imports: the result is [insert_index] when the loop ends or breaks. *)
Fixpoint import_insert_index (todo : list str) (i insert_index : nat) : nat :=
  match todo with
  | [] => insert_index
  | line :: todo' =>
      let stripped := strip line in
      if starts_with (codes "import") stripped
         || starts_with (codes "from") stripped
      then import_insert_index todo' (S i) (i + 1)
      else match stripped with
           | [] => import_insert_index todo' (S i) insert_index
           | _ =>
               if starts_with (codes "#") stripped
               then import_insert_index todo' (S i) insert_index
               else insert_index
           end
  end.

Definition OPTIONAL_IMPORT : str := codes "from typing import Optional".

(** [fix_imports(text)]: the new text and the flag [was_fixed]. *)
Definition fix_imports (text : str) : str * bool :=
  let lines := split_lines text in
  match add_to_typing_import lines (take 50 lines) 0 with
  | Some result => result
  | None =>
      let insert_index := import_insert_index (take 50 lines) 0 0 in
      (join [NEWLINE]
         (take insert_index lines ++ [OPTIONAL_IMPORT]
          ++ drop insert_index lines),
       true)
  end.

(** A line that Step 2 counts as an import, and a line that it passes
    over. *)
Definition import_line (line : str) : bool :=
  starts_with (codes "import") (strip line)
  || starts_with (codes "from") (strip line).

Definition leading_line (line : str) : bool :=
  import_line line
  || match strip line with [] => true | _ => false end
  || starts_with (codes "#") (strip line).


(** The two ways in which Step 1 changes a line. *)
Definition optional_added (old new : str) : Prop :=
  new = rstrip old ++ codes ", Optional" ∨
  (CLOSE_PAREN ∈ old ∧
   new = replace_char old CLOSE_PAREN (codes ", Optional)")).


(** Sample texts for [fix_imports]: no typing import, a typing import on
    one line, and a typing import that ends with a closing parenthesis. *)
Definition no_typing_text : str :=
  codes "import os" ++ [NEWLINE] ++ codes "x = 1".

Definition typing_list_text : str :=
  codes "import os" ++ [NEWLINE] ++ codes "from typing import List  "
  ++ [NEWLINE] ++ codes "x = 1".

Definition typing_paren_text : str :=
  codes "from typing import (List, Dict)" ++ [NEWLINE]
  ++ codes "def f(): pass".


(** ** Properties of the text operations *)

Lemma substring_of_refl (s : str) : substring_of s s.
Proof. exists [], []. by rewrite app_nil_r. Qed.

Lemma substring_of_trans (a b c : str) :
  substring_of a b → substring_of b c → substring_of a c.
Proof.
  intros (l1 & r1 & ->) (l2 & r2 & ->).
  exists (l2 ++ l1), (r1 ++ r2). by rewrite <- !app_assoc.
Qed.

Lemma lstrip_suffix (s : str) : ∃ l, s = l ++ lstrip s.
Proof.
  induction s as [|c s [l IH]]; simpl; [by exists []|].
  destruct (isspace c); [|by exists []].
  exists (c :: l). simpl. by f_equal.
Qed.

Lemma strip_substring (s : str) : substring_of (strip s) s.
Proof.
  unfold strip, rstrip.
  destruct (lstrip_suffix s) as [l Hl].
  destruct (lstrip_suffix (rev (lstrip s))) as [r Hr].
  exists l, (rev r).
  rewrite <- rev_app_distr, <- Hr, rev_involutive. exact Hl.
Qed.

Lemma take_drop_substring (s : str) (n a : nat) :
  substring_of (take n (drop a s)) s.
Proof.
  exists (take a s), (drop n (drop a s)).
  by rewrite take_drop, take_drop.
Qed.

Lemma slice_substring (s : str) (lo hi : Z) : substring_of (slice s lo hi) s.
Proof. apply take_drop_substring. Qed.

(** The slice that [parse_output] takes around a match is its [window]. *)
Lemma slice_window (text : str) (before : nat) (m : Match) :
  slice text (Z.max 0 (Z.of_nat (m_start m) - Z.of_nat before))
             (Z.of_nat (m_end m) + 200)
  = window text before m.
Proof.
  unfold slice, window, slice_index.
  set (n := length text).
  destruct (Z.ltb_spec (Z.max 0 (Z.of_nat (m_start m) - Z.of_nat before)) 0);
    [lia|].
  destruct (Z.ltb_spec (Z.of_nat (m_end m) + 200) 0); [lia|].
  destruct (decide (m_start m - before ≤ n)) as [Hle|Hgt].
  - f_equal; [|f_equal]; lia.
  - rewrite !drop_ge by (fold n; lia). by rewrite !take_nil.
Qed.

(** ** Properties of the matcher *)

(** A repetition that succeeds took some [n] characters, at least its
    minimum, and the rest of the pattern matched after them. *)
Lemma max_repeat_inv cs lo (k : cont) pos s mk r :
  max_repeat cs lo k pos s mk = Some r →
  ∃ n, lo ≤ n ≤ length s ∧ k (pos + n) (drop n s) mk = Some r.
Proof.
  revert lo pos. induction s as [|ch s IH]; intros lo pos H; simpl in H.
  - destruct (Nat.eqb_spec lo 0); [|done].
    exists 0. rewrite Nat.add_0_r. simpl. split; [lia|done].
  - assert (Hstop : (if Nat.eqb lo 0 then k pos (ch :: s) mk else None) = Some r
                    → ∃ n, lo ≤ n ≤ length (ch :: s)
                           ∧ k (pos + n) (drop n (ch :: s)) mk = Some r).
    { destruct (Nat.eqb_spec lo 0); [|done]. intros Hk.
      exists 0. rewrite Nat.add_0_r. simpl. split; [lia|done]. }
    destruct (charset_match cs ch); [|by apply Hstop].
    destruct (max_repeat cs (pred lo) k (S pos) s mk) eqn:Hrec;
      [|by apply Hstop].
    inversion H; subst.
    destruct (IH _ _ Hrec) as (n & Hn & Hk).
    exists (S n). simpl. rewrite Nat.add_succ_r. split; [lia|done].
Qed.

Lemma min_repeat_inv cs lo (k : cont) pos s mk r :
  min_repeat cs lo k pos s mk = Some r →
  ∃ n, lo ≤ n ≤ length s ∧ k (pos + n) (drop n s) mk = Some r.
Proof.
  revert lo pos. induction s as [|ch s IH]; intros lo pos H; simpl in H.
  - destruct (Nat.eqb_spec lo 0); [|done].
    destruct (k pos [] mk) eqn:Hk; [|done].
    exists 0. rewrite Nat.add_0_r. simpl. split; [lia|congruence].
  - assert (Hmore : (if charset_match cs ch
                     then min_repeat cs (pred lo) k (S pos) s mk else None)
                    = Some r
                    → ∃ n, lo ≤ n ≤ length (ch :: s)
                           ∧ k (pos + n) (drop n (ch :: s)) mk = Some r).
    { destruct (charset_match cs ch); [|done]. intros Hrec.
      destruct (IH _ _ Hrec) as (n & Hn & Hk).
      exists (S n). simpl. rewrite Nat.add_succ_r. split; [lia|done]. }
    destruct (Nat.eqb_spec lo 0); [|by apply Hmore].
    destruct (k pos (ch :: s) mk) eqn:Hk; [|by apply Hmore].
    exists 0. rewrite Nat.add_0_r. simpl. split; [lia|congruence].
Qed.

(** A match ends inside the subject, at or after its start. *)
Lemma sre_match_bounds p pos s mk e mk' :
  sre_match p pos s mk = Some (e, mk') → pos ≤ e ≤ pos + length s.
Proof.
  revert pos s mk. induction p as [|op p IH]; intros pos s mk H; simpl in H.
  - inversion H; subst. lia.
  - destruct op as [cs|lo cs|lo cs|i].
    + destruct s as [|ch s]; [done|].
      destruct (charset_match cs ch); [|done].
      apply IH in H. simpl. lia.
    + apply max_repeat_inv in H as (n & Hn & H). apply IH in H.
      rewrite length_drop in H. lia.
    + apply min_repeat_inv in H as (n & Hn & H). apply IH in H.
      rewrite length_drop in H. lia.
    + by apply IH in H.
Qed.

(** A pattern that opens with a character never matches the empty string. *)
Lemma sre_match_nonempty cs p pos s mk e mk' :
  sre_match (One cs :: p) pos s mk = Some (e, mk') → pos < e.
Proof.
  simpl. destruct s as [|ch s]; [done|].
  destruct (charset_match cs ch); [|done].
  intros H%sre_match_bounds. lia.
Qed.

(** Every mark of a pattern is set when the pattern has matched. *)
Lemma sre_match_marks p pos s mk e mk' i :
  sre_match p pos s mk = Some (e, mk') →
  In (Mark i) p ∨ is_Some (mark_get mk i) → is_Some (mark_get mk' i).
Proof.
  revert pos s mk. induction p as [|op p IH]; intros pos s mk H Hi; simpl in H.
  - inversion H; subst. by destruct Hi as [[]|].
  - assert (Hp : ∀ pos s, sre_match p pos s mk = Some (e, mk') →
                 op ≠ Mark i → is_Some (mark_get mk' i)).
    { intros pos' s' H' Hop. eapply IH; [exact H'|].
      destruct Hi as [[->|Hi]|Hi]; [done|by left|by right]. }
    destruct op as [cs|lo cs|lo cs|j].
    + destruct s as [|ch s]; [done|].
      destruct (charset_match cs ch); [|done]. by eapply Hp.
    + apply max_repeat_inv in H as (n & _ & H). by eapply Hp.
    + apply min_repeat_inv in H as (n & _ & H). by eapply Hp.
    + eapply IH; [exact H|]. simpl.
      destruct (Nat.eqb_spec j i); [by right|].
      destruct Hi as [[Heq|Hi]|Hi]; [congruence|by left|by right].
Qed.

(** A run of literal characters matches exactly where it is written. *)
Lemma sre_match_literals (l : str) p pos s mk :
  sre_match (map (fun c => One (Literal c)) l ++ p) pos s mk
  = if starts_with l s then sre_match p (pos + length l) (drop (length l) s) mk
    else None.
Proof.
  revert pos s. induction l as [|c l IH]; intros pos s; simpl.
  - by rewrite Nat.add_0_r.
  - destruct s as [|d s]; [done|]. simpl.
    destruct (d =? c)%N; [|done]. simpl.
    rewrite IH. by rewrite Nat.add_succ_r.
Qed.

(** ** Properties of the scanner *)

Lemma chain_weaken from from' ms : from ≤ from' → chain from' ms → chain from ms.
Proof. destruct ms as [|m ms]; simpl; [done|]. intros ? (? & ? & ?). eauto with lia. Qed.

Lemma scan_chain p s pos inside : chain (pos + inside) (scan p pos s inside).
Proof.
  revert pos inside. induction s as [|c s IH]; intros pos [|n]; simpl; try done.
  - destruct (sre_match p pos [] []) as [[e mk]|] eqn:H; simpl; [|done].
    apply sre_match_bounds in H. lia.
  - destruct (sre_match p pos (c :: s) []) as [[e mk]|] eqn:H; simpl.
    + apply sre_match_bounds in H. split_and!; [lia..|].
      eapply chain_weaken; [|apply IH]. lia.
    + eapply chain_weaken; [|apply IH]. lia.
  - eapply chain_weaken; [|apply IH]. lia.
Qed.

Lemma scan_sound p s pos inside m :
  m ∈ scan p pos s inside →
  ∃ j, inside ≤ j ≤ length s ∧ m_start m = pos + j ∧
       sre_match p (pos + j) (drop j s) [] = Some (m_end m, m_marks m).
Proof.
  revert pos inside. induction s as [|c s IH]; intros pos [|n]; simpl.
  - destruct (sre_match p pos [] []) as [[e mk]|] eqn:H; [|by intros ?%elem_of_nil].
    intros ->%list_elem_of_singleton. exists 0. rewrite Nat.add_0_r. by simpl.
  - by intros ?%elem_of_nil.
  - assert (Hrest : ∀ n, m ∈ scan p (S pos) s n →
              ∃ j, 0 ≤ j ≤ length (c :: s) ∧ m_start m = pos + j ∧
                sre_match p (pos + j) (drop j (c :: s)) [] = Some (m_end m, m_marks m)).
    { intros n (j & Hj & Hs & Hm)%IH. exists (S j). simpl.
      rewrite Nat.add_succ_r. split_and!; [lia..|done|done]. }
    destruct (sre_match p pos (c :: s) []) as [[e mk]|] eqn:H; [|by eauto].
    intros [->|Hin]%elem_of_cons; [|by eauto].
    exists 0. rewrite Nat.add_0_r. simpl. split_and!; [lia..|done|done].
  - intros (j & Hj & Hs & Hm)%IH. exists (S j). simpl.
    rewrite Nat.add_succ_r. split_and!; [lia..|done|done].
Qed.

Lemma scan_complete p s pos inside j :
  inside ≤ j ≤ length s →
  sre_match p (pos + j) (drop j s) [] ≠ None →
  ∃ m, m ∈ scan p pos s inside ∧ m_start m ≤ pos + j ∧
       (pos + j < m_end m ∨ m_start m = pos + j).
Proof.
  revert pos inside j.
  induction s as [|c s IH]; intros pos inside j Hj Hmatch.
  - assert (j = 0) as -> by (simpl in Hj; lia).
    assert (inside = 0) as -> by lia.
    rewrite Nat.add_0_r in *. simpl in *.
    destruct (sre_match p pos [] []) as [[e mk]|]; [|done].
    eexists. split; [apply list_elem_of_here|]. simpl. eauto.
  - assert (Hrest : ∀ n j', j = S j' → n ≤ j' →
              ∃ m, m ∈ scan p (S pos) s n ∧ m_start m ≤ pos + j ∧
                   (pos + j < m_end m ∨ m_start m = pos + j)).
    { intros n j' -> Hn. rewrite Nat.add_succ_r.
      apply (IH (S pos) n j'); [simpl in Hj; lia|].
      by rewrite Nat.add_succ_r in Hmatch. }
    destruct inside as [|n]; simpl.
    + destruct (sre_match p pos (c :: s) []) as [[e mk]|] eqn:H.
      * destruct (decide (pos + j < e)) as [Hin|Hout].
        { eexists. split; [apply list_elem_of_here|]. simpl. split; [lia|by left]. }
        destruct j as [|j'].
        { eexists. split; [apply list_elem_of_here|]. simpl. split; [lia|right; lia]. }
        destruct (Hrest (e - pos - 1) j' eq_refl) as (m & Hm & ?); [lia|].
        exists m. split; [by apply list_elem_of_further|done].
      * destruct j as [|j'].
        { rewrite Nat.add_0_r in Hmatch. simpl in Hmatch. congruence. }
        apply (Hrest 0 j' eq_refl). lia.
    + destruct j as [|j']; [lia|]. apply (Hrest n j' eq_refl). lia.
Qed.

(** [re.finditer] yields all the non-overlapping matches, left to right. *)
Lemma finditer_all_matches p text : all_matches p text (finditer p text).
Proof.
  unfold all_matches, finditer, match_at. split_and!.
  - apply (scan_chain p text 0 0).
  - apply Forall_forall. intros m (j & Hj & Hs & Hm)%scan_sound.
    simpl in Hs. rewrite Hs. split; [|done].
    apply sre_match_bounds in Hm. rewrite length_drop in Hm. lia.
  - intros q Hq Hmatch. apply (scan_complete p text 0 0 q); [lia|done].
Qed.

(** ** Properties of the scan of a log *)

#[local] Arguments codes : simpl never.
#[local] Arguments slice : simpl never.
#[local] Arguments strip : simpl never.
#[local] Arguments finditer : simpl never.

Lemma for_append_spec {A B} (ms : list A) (f : A → B) (acc : list B) :
  for_append ms f acc = acc ++ map f ms.
Proof.
  unfold for_append. revert acc.
  induction ms as [|m ms IH]; intros acc; simpl; [by rewrite app_nil_r|].
  by rewrite IH, <- app_assoc.
Qed.

Lemma concat_five {A} (a b c d e : list A) :
  concat [a; b; c; d; e] = [] ++ a ++ b ++ c ++ d ++ e.
Proof. simpl. by rewrite app_nil_r. Qed.

(** The issue list is made of one block per detector, in the order of the
    registry, and a block holds one issue per match, in the order of the
    detector's matches. *)
Lemma parse_output_registry (output : str) :
  ∃ blocks : list (list issue),
    parse_output output = concat blocks ∧
    Forall2 (fun d block =>
               Forall2 (reports output d) (finditer d.1.1 output) block)
            registry blocks.
Proof.
  unfold parse_output. rewrite !for_append_spec, <- !app_assoc.
  eexists [_; _; _; _; _]. split; [symmetry; apply concat_five|].
  unfold registry.
  repeat (apply Forall2_cons; split); try (by apply Forall2_nil);
    apply Forall2_fmap_r, Forall_Forall2_diag, Forall_forall;
    intros m _; (split; [reflexivity|]); simpl;
    rewrite <- slice_window; reflexivity.
Qed.

(** Every issue has one of the two severities that the detectors assign. *)
Lemma parse_output_severity (output : str) :
  Forall (fun i : issue =>
            dict_get i "severity" = Some (codes "HIGH") ∨
            dict_get i "severity" = Some (codes "MEDIUM"))
         (parse_output output).
Proof.
  unfold parse_output. rewrite !for_append_spec.
  repeat apply Forall_app_2; try apply Forall_nil_2;
    apply Forall_fmap, Forall_forall; intros m _; simpl; auto.
Qed.

Lemma severity_count_cons (i : issue) (l : list issue) (sev : string) :
  severity_count (i :: l) sev
  = (if decide (dict_get i "severity" = Some (codes sev)) then 1 else 0)
    + severity_count l sev.
Proof. unfold severity_count. rewrite filter_cons. by case_decide. Qed.

(** Over issues of severity HIGH or MEDIUM, the three counts add up to the
    number of issues and the LOW count is zero. *)
Lemma severity_counts (l : list issue) :
  Forall (fun i : issue =>
            dict_get i "severity" = Some (codes "HIGH") ∨
            dict_get i "severity" = Some (codes "MEDIUM")) l →
  severity_count l "HIGH" + severity_count l "MEDIUM" = length l ∧
  severity_count l "LOW" = 0.
Proof.
  induction 1 as [|i l Hi _ [IH1 IH2]]; [done|].
  rewrite !severity_count_cons. simpl length.
  destruct Hi as [Hi|Hi]; rewrite Hi;
    repeat case_decide; try (exfalso; done); try congruence;
    simplify_eq; lia.
Qed.

Lemma elem_of_concat {A} (x : A) (ls : list (list A)) :
  x ∈ concat ls → ∃ l, x ∈ l ∧ l ∈ ls.
Proof.
  induction ls as [|l ls IH]; simpl; [by intros ?%elem_of_nil|].
  intros [Hx|Hx]%elem_of_app.
  - exists l. split; [done|apply list_elem_of_here].
  - destruct (IH Hx) as (l' & ? & ?). exists l'.
    split; [done|by apply list_elem_of_further].
Qed.

Lemma Forall2_elem_of_r {A B} (P : A → B → Prop) l k y :
  Forall2 P l k → y ∈ k → ∃ x, x ∈ l ∧ P x y.
Proof.
  induction 1 as [|x y' l k Hxy _ IH]; [by intros ?%elem_of_nil|].
  intros [->|Hy]%elem_of_cons.
  - exists x. split; [apply list_elem_of_here|done].
  - destruct (IH Hy) as (x' & ? & ?). exists x'.
    split; [by apply list_elem_of_further|done].
Qed.

(** Every issue comes from a match of a registered detector. *)
Lemma parse_output_elem (output : str) (i : issue) :
  i ∈ parse_output output →
  ∃ d m, d ∈ registry ∧ m ∈ finditer d.1.1 output ∧ reports output d m i.
Proof.
  destruct (parse_output_registry output) as (blocks & -> & Hblocks).
  intros (block & Hi & Hblock)%elem_of_concat.
  destruct (Forall2_elem_of_r _ _ _ _ Hblocks Hblock) as (d & Hd & Hms).
  destruct (Forall2_elem_of_r _ _ _ _ Hms Hi) as (m & Hm & Hrep).
  by exists d, m.
Qed.

(** ** The claims about the scan and the report *)

(** C1. For every log text, the HIGH, MEDIUM and LOW counts of the report
    built from it add up to [total_issues], which is the length of the
    issue list. *)
Theorem report_counts_add_up (output now : str) (rc : Z) :
  let r := make_report now rc (parse_output output) in
  sum_values (by_severity r) = total_issues r ∧
  total_issues r = length (issues r).
Proof.
  destruct (severity_counts _ (parse_output_severity output)) as [Hsum Hlow].
  unfold sum_values, dict_values, make_report.
  cbn [by_severity total_issues issues map snd foldr].
  split; [|done]. by rewrite Hlow, !Nat.add_0_r.
Qed.

(** C10. For every log text, every issue of the scan has severity HIGH or
    MEDIUM, and the LOW entry of [by_severity] in the report is 0. *)
Theorem no_low_severity (output now : str) (rc : Z) :
  Forall (fun i : issue =>
            dict_get i "severity" = Some (codes "HIGH") ∨
            dict_get i "severity" = Some (codes "MEDIUM"))
         (parse_output output) ∧
  dict_get (by_severity (make_report now rc (parse_output output))) "LOW"
  = Some 0.
Proof.
  split; [apply parse_output_severity|].
  destruct (severity_counts _ (parse_output_severity output)) as [_ Hlow].
  unfold make_report. cbn [by_severity dict_get String.eqb Ascii.eqb Bool.eqb].
  by rewrite Hlow.
Qed.

(** C5. For every log text and every issue of its scan, the stored context
    is the stripped window of a match of a registered detector: the window
    starts [before] characters ahead of the match, clamped to 0, and ends
    200 characters after it, clamped to the length of the text; it is
    computed for every match, and it is a piece of the log text. *)
Theorem context_within_log (output : str) (i : issue) :
  i ∈ parse_output output →
  ∃ d m, d ∈ registry ∧ m ∈ finditer d.1.1 output ∧
    let a := m_start m - d.2 in
    let b := Nat.min (m_end m + 200) (length output) in
    a ≤ b ≤ length output ∧
    dict_get i "context" = Some (strip (take (b - a) (drop a output))) ∧
    substring_of (strip (take (b - a) (drop a output))) output.
Proof.
  intros (d & m & Hd & Hm & _ & Hctx)%parse_output_elem.
  exists d, m. split; [done|]. split; [done|]. cbv zeta.
  assert (m_start m ≤ m_end m ≤ length output) as Hbounds.
  { destruct (finditer_all_matches d.1.1 output) as (_ & Hsound & _).
    rewrite Forall_forall in Hsound.
    destruct (Hsound m Hm) as [Hend Hmatch].
    apply sre_match_bounds in Hmatch. lia. }
  split; [lia|]. split; [exact Hctx|].
  eapply substring_of_trans;
    [apply strip_substring|apply take_drop_substring].
Qed.

(** C8. For every log text, the issue sequence is one block per detector in
    registration order; the block of a detector holds one issue per match,
    in the order of the matches; and the matches are all the
    non-overlapping matches of the detector over the whole text, by
    increasing offset. *)
Theorem issues_in_detector_then_match_order (output : str) :
  ∃ blocks : list (list issue),
    parse_output output = concat blocks ∧
    Forall2 (fun d block =>
               ∃ ms, all_matches d.1.1 output ms ∧
                     Forall2 (reports output d) ms block)
            registry blocks.
Proof.
  destruct (parse_output_registry output) as (blocks & Heq & Hblocks).
  exists blocks. split; [done|].
  eapply Forall2_impl; [exact Hblocks|].
  intros d block Hms. exists (finditer d.1.1 output).
  split; [apply finditer_all_matches|done].
Qed.

(** *** A literal detector *)

Section Literal.

(** A pattern [p] that matches exactly where [l] is written. *)
Variable p : pattern.
Variable l : str.
Hypothesis l_not_empty : l ≠ [].
Hypothesis p_literal : ∀ pos s mk,
  sre_match p pos s mk
  = if starts_with l s then Some (pos + length l, mk) else None.

Lemma scan_literal_le pos s inside :
  length (scan p pos s inside) ≤ occurrences l s.
Proof using l_not_empty p_literal.
  revert pos inside. induction s as [|c s IH]; intros pos [|n]; simpl;
    rewrite ?p_literal.
  - destruct l; [done|]. simpl. lia.
  - lia.
  - destruct (starts_with l (c :: s)); simpl; specialize (IH (S pos)).
    + specialize (IH (pos + length l - pos - 1)). lia.
    + specialize (IH 0). lia.
  - specialize (IH (S pos) n). lia.
Qed.

Lemma scan_literal_ge pos s :
  1 ≤ occurrences l s → 1 ≤ length (scan p pos s 0).
Proof using l_not_empty p_literal.
  revert pos. induction s as [|c s IH]; intros pos; simpl; rewrite p_literal.
  - destruct l; [done|]. simpl. lia.
  - destruct (starts_with l (c :: s)); simpl; [lia|]. apply IH.
Qed.

End Literal.

Lemma restricted_match pos s mk :
  sre_match restricted_re pos s mk
  = if starts_with (codes RESTRICTED) s
    then Some (pos + length (codes RESTRICTED), mk) else None.
Proof.
  unfold restricted_re, lit.
  rewrite <- (app_nil_r (map (fun c => One (Literal c)) (codes RESTRICTED))).
  by rewrite sre_match_literals.
Qed.

(** The issues of one kind, inside the block of a detector. *)
Lemma filter_type_same (kind : str) (f : Match → issue) (ms : list Match) :
  (∀ m, dict_get (f m) "type" = Some kind) →
  filter (fun i : issue => dict_get i "type" = Some kind) (map f ms) = map f ms.
Proof.
  intros Hf. induction ms as [|m ms IH]; [done|]. simpl.
  by rewrite filter_cons_True, IH.
Qed.

Lemma filter_type_other (kind kind' : str) (f : Match → issue) (ms : list Match) :
  kind' ≠ kind →
  (∀ m, dict_get (f m) "type" = Some kind') →
  filter (fun i : issue => dict_get i "type" = Some kind) (map f ms) = [].
Proof.
  intros Hne Hf. induction ms as [|m ms IH]; [done|]. simpl.
  rewrite filter_cons_False; [done|]. rewrite Hf. congruence.
Qed.

(** C4. For every log text in which
    ModuleNotFoundError: No module named 'RestrictedPython' is written at
    exactly one offset, the scan produces exactly one issue of kind
    MissingDependency; its severity is HIGH and its dependency field is
    RestrictedPython. *)
Theorem restricted_python_once (output : str) :
  occurrences (codes RESTRICTED) output = 1 →
  ∃ i : issue,
    filter (fun i : issue => dict_get i "type" = Some (codes "MissingDependency"))
           (parse_output output) = [i] ∧
    dict_get i "severity" = Some (codes "HIGH") ∧
    dict_get i "dependency" = Some (codes "RestrictedPython").
Proof.
  intros Hocc.
  assert (length (finditer restricted_re output) = 1) as Hlen.
  { assert (codes RESTRICTED ≠ []) as Hne by (vm_compute; discriminate).
    pose proof (scan_literal_le _ _ Hne restricted_match 0 output 0).
    pose proof (scan_literal_ge _ _ Hne restricted_match 0 output).
    unfold finditer. lia. }
  destruct (finditer restricted_re output) as [|m [|m' ms]] eqn:Hms;
    simpl in Hlen; try lia.
  unfold parse_output. rewrite !for_append_spec, !filter_app, Hms.
  rewrite (filter_type_other _ (codes "MissingOptionalImport"));
    [|by vm_compute|done].
  rewrite (filter_type_same (codes "MissingDependency")); [|done].
  rewrite (filter_type_other _ (codes "PydanticV2Migration"));
    [|by vm_compute|done].
  rewrite (filter_type_other _ (codes "UnknownPytestMarker"));
    [|by vm_compute|done].
  rewrite (filter_type_other _ (codes "ImportError"));
    [|by vm_compute|done].
  eexists. split; [reflexivity|]. split; reflexivity.
Qed.

(** *** The import detector *)

(** Where the sample import error is written, the pattern matches it and
    stops at its closing quote. *)
Lemma foo_import_match pos after :
  sre_match import_re pos (codes FOO_IMPORT ++ after) []
  = Some (52 + pos,
          [(3, 51 + pos); (2, 44 + pos); (1, 36 + pos); (0, 33 + pos)]).
Proof. vm_compute. reflexivity. Qed.

Lemma group_str_marks text m g a b :
  mark_get (m_marks m) (2 * g - 2) = Some a →
  mark_get (m_marks m) (2 * g - 1) = Some b →
  group_str text m g = take (b - a) (drop a text).
Proof. unfold group_str, group. by intros -> ->. Qed.

(** Both groups of the import pattern take part in each of its matches. *)
Lemma import_groups_set output m :
  m ∈ finditer import_re output →
  is_Some (group output m 1) ∧ is_Some (group output m 2).
Proof.
  intros (j & _ & _ & Hm)%scan_sound.
  assert (∀ i, i < 4 → is_Some (mark_get (m_marks m) i)) as Hmarks.
  { intros i Hi. eapply sre_match_marks; [exact Hm|]. left.
    assert (i = 0 ∨ i = 1 ∨ i = 2 ∨ i = 3) as Hcases by lia.
    destruct Hcases as [Hi'|[Hi'|[Hi'|Hi']]]; subst i; vm_compute; tauto. }
  unfold group. simpl.
  destruct (Hmarks 0) as [? ->]; [lia|].
  destruct (Hmarks 1) as [? ->]; [lia|].
  destruct (Hmarks 2) as [? ->]; [lia|].
  destruct (Hmarks 3) as [? ->]; [lia|].
  split; eauto.
Qed.

(** C7 (amended). For every log text in which
    ImportError: cannot import name 'Foo' from 'pkg.bar' is written, and in
    which no match of the import pattern that starts before it runs on into
    it, the scan produces an issue of kind ImportError whose imported_name
    is Foo and whose from_module is pkg.bar. *)
Theorem foo_import_reported (before after : str) :
  let output := before ++ codes FOO_IMPORT ++ after in
  (∀ q e mk, q < length before →
     match_at import_re output q = Some (e, mk) → e ≤ length before) →
  ∃ i : issue,
    i ∈ parse_output output ∧
    dict_get i "type" = Some (codes "ImportError") ∧
    dict_get i "imported_name" = Some (codes "Foo") ∧
    dict_get i "from_module" = Some (codes "pkg.bar").
Proof.
  intros output Hfree.
  set (n := length before).
  assert (match_at import_re output n
          = Some (52 + n, [(3, 51 + n); (2, 44 + n); (1, 36 + n); (0, 33 + n)]))
    as Hhere.
  { unfold match_at, output, n. rewrite drop_app_length.
    apply foo_import_match. }
  destruct (finditer_all_matches import_re output) as (_ & Hsound & Hall).
  destruct (Hall n) as (m & Hm & Hle & Hcover).
  { unfold output, n. rewrite length_app. lia. }
  { by rewrite Hhere. }
  rewrite Forall_forall in Hsound.
  destruct (Hsound m Hm) as [_ Hmatch].
  assert (m_start m = n) as Hstart.
  { destruct Hcover as [Hin|]; [|done].
    destruct (decide (m_start m < n)) as [Hlt|]; [|lia].
    specialize (Hfree _ _ _ Hlt Hmatch). lia. }
  rewrite Hstart, Hhere in Hmatch.
  assert (m_marks m = [(3, 51 + n); (2, 44 + n); (1, 36 + n); (0, 33 + n)])
    as Hmarks by congruence.
  eexists. split.
  { unfold parse_output. rewrite !for_append_spec.
    apply elem_of_app. right. apply list_elem_of_fmap_2. exact Hm. }
  assert (∀ a, drop (a + n) output = drop a (codes FOO_IMPORT ++ after))
    as Hdrop.
  { intros a. unfold output, n. by rewrite Nat.add_comm, drop_app_add. }
  split; [reflexivity|].
  split; cbn [dict_get String.eqb Ascii.eqb Bool.eqb]; f_equal.
  - rewrite (group_str_marks _ _ 1 (33 + n) (36 + n))
      by (by rewrite Hmarks).
    replace (36 + n - (33 + n)) with 3 by lia.
    rewrite (Hdrop 33). vm_compute. reflexivity.
  - rewrite (group_str_marks _ _ 2 (44 + n) (51 + n))
      by (by rewrite Hmarks).
    replace (51 + n - (44 + n)) with 7 by lia.
    rewrite (Hdrop 44). vm_compute. reflexivity.
Qed.

(** ** The claims about an invocation *)

#[local] Arguments parse_output : simpl never.
#[local] Arguments json_dumps : simpl never.
#[local] Arguments txt_lines : simpl never.
#[local] Arguments make_report : simpl never.
#[local] Arguments join : simpl never.

(** When [main] returns, its status is 0 or 1. *)
Lemma main_returned (a : args) (w : world) (status : Z) (w' : world) :
  main a w = (Returned status, w') → status = 0%Z ∨ status = 1%Z.
Proof.
  unfold main, run_pytest_and_capture. simpl.
  destruct (run_pytest a).
  - destruct (pytest w) as [[rc output]|]; [|done].
    intros [= <- _]. destruct (Nat.eqb _ 0); auto.
  - destruct (given (pytest_log a)) as [path|]; [|done].
    destruct (files w !! path) as [output|]; [|done].
    intros [= <- _]. destruct (Nat.eqb _ 0); auto.
Qed.

(** C6. When neither origin of the log is supplied, the invocation stops
    with exit status 2, which is neither 0 nor a status that [main] returns
    after a scan (1 when issues were detected); the files are left as they
    were, so neither report document is written. *)
Theorem neither_origin_fails (a : args) (w : world) :
  run_pytest a = false → pytest_log a = None →
  ∃ w', main a w = (SysExit 2, w') ∧
        files w' = files w ∧
        (2 ≠ 0)%Z ∧
        ∀ a2 w2 status w2',
          main a2 w2 = (Returned status, w2') → (status ≠ 2)%Z.
Proof.
  intros Hrun Hlog. unfold main. rewrite Hrun, Hlog. simpl.
  eexists. split; [reflexivity|]. split; [reflexivity|]. split; [lia|].
  intros a2 w2 status w2' [->| ->]%main_returned; lia.
Qed.

(** C9. When the log is read from an existing file, the return code
    recorded in the report written to report.json is the constant 0,
    whatever the path and whatever the file holds; it is not taken from a
    process. *)
Theorem log_file_return_code (a : args) (w : world) (path : string) (output : str) :
  run_pytest a = false → pytest_log a = Some path → path ≠ "" →
  files w !! path = Some output →
  ∃ status w' r,
    main a w = (Returned status, w') ∧
    files w' !! ((ROOT w +:+ "/diagnostics") +:+ "/report.json")
      = Some (json_dumps (report_json r)) ∧
    issues r = parse_output output ∧
    return_code r = 0%Z.
Proof.
  intros Hrun Hlog Hpath Hfile. unfold main. rewrite Hrun, Hlog.
  assert (given (Some path) = Some path) as -> by (by destruct path).
  rewrite Hfile.
  eexists _, _, (make_report (utcnow w) 0 (parse_output output)).
  split; [reflexivity|]. split; [|done].
  simpl. rewrite lookup_insert_ne, lookup_insert_eq; [done|].
  intros Heq%(inj _). discriminate.
Qed.

(** A live run records the return code of the pytest process, which may
    be 0 as well. *)
Lemma live_run_return_code (a : args) (w : world) (rc : Z) (output : str) :
  run_pytest a = true → pytest w = Some (rc, output) →
  ∃ status w' r,
    main a w = (Returned status, w') ∧
    files w' !! ((ROOT w +:+ "/diagnostics") +:+ "/report.json")
      = Some (json_dumps (report_json r)) ∧
    issues r = parse_output output ∧
    return_code r = rc.
Proof.
  intros Hrun Hpytest. unfold main, run_pytest_and_capture.
  rewrite Hrun. simpl. rewrite Hpytest.
  eexists _, _, (make_report (utcnow w) rc (parse_output output)).
  split; [reflexivity|]. split; [|done].
  simpl. rewrite lookup_insert_ne, lookup_insert_eq; [done|].
  intros Heq%(inj _). discriminate.
Qed.

(** *** The two detectors that fall short of their description *)

(** After the error line for Optional, the pattern looks for the end of
    the line. *)
Lemma optional_line_match pos rest :
  sre_match optional_re pos (codes OPTIONAL_ERROR ++ rest) []
  = min_repeat Any 0 (sre_match [One (Literal NEWLINE)]) (41 + pos) rest [].
Proof. vm_compute. reflexivity. Qed.

Lemma min_repeat_newline pos s mk :
  NEWLINE ∈ s →
  min_repeat Any 0 (sre_match [One (Literal NEWLINE)]) pos s mk ≠ None.
Proof.
  revert pos. induction s as [|c s IH]; intros pos; [by intros ?%elem_of_nil|].
  intros Hin. simpl.
  destruct (N.eqb_spec c NEWLINE) as [->|Hc]; [done|]. simpl.
  apply IH. apply elem_of_cons in Hin as [?|?]; [congruence|done].
Qed.

(** The error line for Optional is reported whenever a line break follows
    it somewhere in the log. *)
Lemma optional_reported_before_newline (before rest : str) :
  NEWLINE ∈ rest →
  ∃ i : issue,
    i ∈ parse_output (before ++ codes OPTIONAL_ERROR ++ rest) ∧
    dict_get i "type" = Some (codes "MissingOptionalImport").
Proof.
  intros Hnl. set (output := before ++ codes OPTIONAL_ERROR ++ rest).
  destruct (finditer_all_matches optional_re output) as (_ & _ & Hall).
  destruct (Hall (length before)) as (m & Hm & _).
  { unfold output. rewrite length_app. lia. }
  { unfold match_at, output. rewrite drop_app_length, optional_line_match.
    by apply min_repeat_newline. }
  eexists. split.
  - unfold parse_output. rewrite !for_append_spec, <- !app_assoc. simpl.
    apply elem_of_app. left. apply list_elem_of_fmap_2. exact Hm.
  - reflexivity.
Qed.

(** C3. The log that consists of the error line
    NameError: name 'Optional' is not defined, with no line break after
    it, contains the error string and yet its scan reports nothing. *)
Theorem optional_at_end_missed :
  substring_of (codes OPTIONAL_ERROR) unterminated_log ∧
  parse_output unterminated_log = [].
Proof.
  split; [unfold unterminated_log; apply substring_of_refl|].
  vm_compute. reflexivity.
Qed.

(** An issue of kind UnknownPytestMarker has four fields, none of them
    for the name of the marker. *)
Lemma marker_issue_fields (output : str) (i : issue) :
  i ∈ parse_output output →
  dict_get i "type" = Some (codes "UnknownPytestMarker") →
  map fst i = ["type"; "severity"; "context"; "fix"].
Proof.
  unfold parse_output. rewrite !for_append_spec.
  rewrite !elem_of_app, !list_elem_of_fmap.
  intros [[[[[Hi|Hi]|Hi]|Hi]|Hi]|Hi] Htype;
    [by apply elem_of_nil in Hi|destruct Hi as (m & -> & _)..];
    try reflexivity; vm_compute in Htype; discriminate.
Qed.

(** C2. On the log ERROR: Unknown pytest.mark.slow the marker pattern
    matches once and captures the name slow in its group, but the one
    issue reported has the fields type, severity, context and fix only:
    the name is not stored in a field of its own. *)
Theorem marker_name_not_stored :
  (∃ m, finditer marker_re marker_log = [m] ∧
        group marker_log m 1 = Some (codes "slow")) ∧
  parse_output marker_log = [marker_issue] ∧
  map fst marker_issue = ["type"; "severity"; "context"; "fix"].
Proof.
  split; [|split]; [|vm_compute; reflexivity..].
  eexists. split; vm_compute; reflexivity.
Qed.

(** ** More about an invocation *)

Lemma report_paths_differ (w : world) : report_txt_path w ≠ report_json_path w.
Proof. unfold report_txt_path, report_json_path. intros Heq%(inj _). discriminate. Qed.

(** What a run that returns has done. *)
Lemma main_returned_run (a : args) (w : world)
    (status : Z) (w' : world) :
  main a w = (Returned status, w') →
  ∃ r : report,
    files w'
    = <[report_txt_path w := join [NEWLINE] (txt_lines r (return_code r))]>
        (<[report_json_path w := json_dumps (report_json r)]> (files w)) ∧
    timestamp r = utcnow w ∧
    stderr w' = stderr w ∧
    (status = 0%Z ∧ total_issues r = 0 ∨ status = 1%Z ∧ 0 < total_issues r).
Proof.
  unfold main, run_pytest_and_capture. simpl.
  assert (∀ rc output,
    let l := parse_output output in
    (if Nat.eqb (length l) 0 then 0%Z else 1%Z) = status →
    status = 0%Z ∧ total_issues (make_report (utcnow w) rc l) = 0
    ∨ status = 1%Z ∧ 0 < total_issues (make_report (utcnow w) rc l)) as Hstatus.
  { intros rc output l <-. unfold make_report. simpl.
    destruct (length l); simpl; [left|right]; split; (done || lia). }
  destruct (run_pytest a).
  - destruct (pytest w) as [[rc output]|]; [|done].
    intros [= Hs <-].
    exists (make_report (utcnow w) rc (parse_output output)).
    split_and!; [done..|by apply Hstatus].
  - destruct (given (pytest_log a)) as [path|]; [|done].
    destruct (files w !! path) as [output|]; [|done].
    intros [= Hs <-].
    exists (make_report (utcnow w) 0 (parse_output output)).
    split_and!; [done..|by apply Hstatus].
Qed.

(** What a run that does not return has left behind. *)
Lemma main_stopped_run (a : args) (w : world) (o : outcome) (w' : world) :
  main a w = (o, w') → (∀ status, o ≠ Returned status) → files w' = files w.
Proof.
  unfold main, run_pytest_and_capture. simpl. intros H Ho.
  destruct (run_pytest a).
  - destruct (pytest w) as [[rc output]|]; injection H as <- <-; [|done].
    exfalso. by eapply Ho.
  - destruct (given (pytest_log a)) as [path|]; [|by injection H as <- <-].
    destruct (files w !! path) as [output|]; injection H as <- <-; [|done].
    exfalso. by eapply Ho.
Qed.

(** X1. A run of [main] that returns has written both documents from one
    report, has printed nothing to stderr, and its status is 0 when that
    report counts no issue and 1 when it counts some. *)
Theorem returned_status_matches_report (a : args) (w : world)
    (status : Z) (w' : world) :
  main a w = (Returned status, w') →
  ∃ r : report,
    files w'
    = <[report_txt_path w := join [NEWLINE] (txt_lines r (return_code r))]>
        (<[report_json_path w := json_dumps (report_json r)]> (files w)) ∧
    timestamp r = utcnow w ∧
    stderr w' = stderr w ∧
    (status = 0%Z ∧ total_issues r = 0 ∨ status = 1%Z ∧ 0 < total_issues r).
Proof. apply main_returned_run. Qed.

(** X2. When the log file named on the command line does not exist, the
    invocation stops with exit status 1, the status it also returns when
    issues were found; it writes no file, prints nothing to stdout and
    one line to stderr that ends with the path. *)
Theorem missing_log_file (a : args) (w : world) (path : string) :
  run_pytest a = false → pytest_log a = Some path → path ≠ "" →
  files w !! path = None →
  ∃ w', main a w = (SysExit 1, w') ∧
        files w' = files w ∧
        stdout w' = stdout w ∧
        stderr w' = stderr w ++ [codes "[ERROR] Лог не найден: " ++ codes path].
Proof.
  intros Hrun Hlog Hpath Hfile. unfold main. rewrite Hrun, Hlog.
  assert (given (Some path) = Some path) as -> by (by destruct path).
  rewrite Hfile. eexists. split; [reflexivity|]. by split_and!.
Qed.

(** X3. With --run-pytest the log path has no effect: the invocation does
    what it does without --pytest-log. *)
Theorem run_pytest_ignores_log (a : args) (w : world) :
  run_pytest a = true →
  main a w = main {| run_pytest := true; pytest_log := None |} w.
Proof. intros Hrun. unfold main. by rewrite Hrun. Qed.


(** X5. An invocation that does not return (it exits, or fails to start
    pytest) leaves every file as it was. *)
Theorem stopped_run_writes_nothing (a : args) (w : world) (o : outcome) (w' : world) :
  main a w = (o, w') → (∀ status, o ≠ Returned status) → files w' = files w.
Proof. apply main_stopped_run. Qed.


(** ** More about the human document *)

Lemma split_lines_length (s : str) : 1 ≤ length (split_lines s).
Proof.
  induction s as [|c s IH]; simpl; [lia|].
  destruct (c =? NEWLINE)%N; simpl; [lia|].
  destruct (split_lines s); simpl in *; lia.
Qed.




(** ** More about the matcher *)

(** The characters that a repetition took all belong to its set. *)
Lemma max_repeat_chars cs lo (k : cont) pos s mk r :
  max_repeat cs lo k pos s mk = Some r →
  ∃ n, lo ≤ n ≤ length s ∧
       Forall (fun ch => charset_match cs ch = true) (take n s) ∧
       k (pos + n) (drop n s) mk = Some r.
Proof.
  revert lo pos. induction s as [|ch s IH]; intros lo pos H; simpl in H.
  - destruct (Nat.eqb_spec lo 0); [|done].
    exists 0. rewrite Nat.add_0_r. simpl. split_and!; [lia..|done|done].
  - assert (Hstop : (if Nat.eqb lo 0 then k pos (ch :: s) mk else None) = Some r
                    → ∃ n, lo ≤ n ≤ length (ch :: s) ∧
                        Forall (fun ch => charset_match cs ch = true)
                               (take n (ch :: s)) ∧
                        k (pos + n) (drop n (ch :: s)) mk = Some r).
    { destruct (Nat.eqb_spec lo 0); [|done]. intros Hk.
      exists 0. rewrite Nat.add_0_r. simpl. split_and!; [lia..|done|done]. }
    destruct (charset_match cs ch) eqn:Hch; [|by apply Hstop].
    destruct (max_repeat cs (pred lo) k (S pos) s mk) eqn:Hrec;
      [|by apply Hstop].
    inversion H; subst.
    destruct (IH _ _ Hrec) as (n & Hn & Hall & Hk).
    exists (S n). simpl. rewrite Nat.add_succ_r.
    split_and!; [lia..|by constructor|done].
Qed.

(** A greedy repetition succeeds whenever some number of characters of its
    set, at least the minimum, can be taken so that the rest matches. *)
Lemma max_repeat_some cs lo (k : cont) pos s mk n :
  lo ≤ n ≤ length s →
  Forall (fun ch => charset_match cs ch = true) (take n s) →
  k (pos + n) (drop n s) mk ≠ None →
  max_repeat cs lo k pos s mk ≠ None.
Proof.
  revert lo pos n. induction s as [|ch s IH]; intros lo pos n Hn Hall Hk.
  - assert (n = 0) as -> by (simpl in Hn; lia).
    assert (lo = 0) as -> by lia.
    rewrite Nat.add_0_r in Hk. by simpl in *.
  - simpl. destruct n as [|n].
    + assert (lo = 0) as -> by lia. rewrite Nat.add_0_r in Hk. simpl in *.
      destruct (charset_match cs ch); [|done].
      by destruct (max_repeat cs 0 k (S pos) s mk).
    + simpl in Hall, Hk, Hn. apply Forall_cons in Hall as [-> Hall].
      rewrite Nat.add_succ_r in Hk.
      pose proof (IH (pred lo) (S pos) n ltac:(lia) Hall Hk) as Hrec.
      by destruct (max_repeat cs (pred lo) k (S pos) s mk).
Qed.

Lemma starts_with_app (l s : str) : starts_with l (l ++ s) = true.
Proof. induction l as [|c l IH]; simpl; [done|]. by rewrite N.eqb_refl. Qed.

Lemma starts_with_split (l s : str) :
  starts_with l s = true → s = l ++ drop (length l) s.
Proof.
  revert s. induction l as [|c l IH]; intros s; simpl; [done|].
  destruct s as [|d s]; [done|].
  destruct (N.eqb_spec d c) as [->|]; [|done]. simpl.
  intros H. f_equal. by apply IH.
Qed.

(** ** More about the scan of a log *)

Lemma Forall2_elem_of_l {A B} (P : A → B → Prop) l k x :
  Forall2 P l k → x ∈ l → ∃ y, y ∈ k ∧ P x y.
Proof.
  induction 1 as [|x' y l k Hxy _ IH]; [by intros ?%elem_of_nil|].
  intros [->|Hx]%elem_of_cons.
  - exists y. split; [apply list_elem_of_here|done].
  - destruct (IH Hx) as (y' & ? & ?). exists y'.
    split; [by apply list_elem_of_further|done].
Qed.

Lemma elem_of_concat_2 {A} (x : A) (l : list A) (ls : list (list A)) :
  x ∈ l → l ∈ ls → x ∈ concat ls.
Proof.
  intros Hx. induction ls as [|l' ls IH]; [by intros ?%elem_of_nil|].
  simpl. intros [->|Hl]%elem_of_cons; apply elem_of_app; auto.
Qed.

(** Each match of a registered detector is reported. *)
Lemma detector_reports (output : str) d m :
  d ∈ registry → m ∈ finditer d.1.1 output →
  ∃ i, i ∈ parse_output output ∧ reports output d m i.
Proof.
  intros Hd Hm.
  destruct (parse_output_registry output) as (blocks & -> & Hblocks).
  destruct (Forall2_elem_of_l _ _ _ _ Hblocks Hd) as (block & Hblock & Hms).
  destruct (Forall2_elem_of_l _ _ _ _ Hms Hm) as (i & Hi & Hrep).
  exists i. split; [by eapply elem_of_concat_2|done].
Qed.

(** The kind of an issue tells the detector that reported it. *)
Lemma parse_output_kind (output : str) d (i : issue) :
  d ∈ registry → i ∈ parse_output output →
  dict_get i "type" = Some (codes d.1.2) →
  ∃ m, m ∈ finditer d.1.1 output ∧ reports output d m i.
Proof.
  intros Hd (d' & m & Hd' & Hm & Hrep)%parse_output_elem Htype.
  assert (d' = d) as ->; [|by exists m].
  destruct Hrep as [Htype' _]. rewrite Htype in Htype'.
  unfold registry in Hd, Hd'.
  rewrite !elem_of_cons, elem_of_nil in Hd, Hd'.
  destruct Hd as [->|[->|[->|[->|[->|[]]]]]];
    destruct Hd' as [->|[->|[->|[->|[->|[]]]]]];
    try reflexivity; vm_compute in Htype'; discriminate.
Qed.

(** A pattern is matched somewhere exactly when the scanner finds it. *)
Lemma finditer_nonempty_iff p text :
  (∃ m, m ∈ finditer p text) ↔
  ∃ q, q ≤ length text ∧ match_at p text q ≠ None.
Proof.
  destruct (finditer_all_matches p text) as (_ & Hsound & Hall).
  rewrite Forall_forall in Hsound. split.
  - intros [m Hm]. destruct (Hsound m Hm) as [Hend Hmatch].
    exists (m_start m). rewrite Hmatch. split; [|done].
    apply sre_match_bounds in Hmatch. lia.
  - intros (q & Hq & Hmatch). destruct (Hall q Hq Hmatch) as (m & Hm & _).
    by exists m.
Qed.

(** An issue of a kind is reported exactly when the log splits at an
    offset where the pattern of that kind matches. *)
Lemma kind_reported_split (output : str) d :
  d ∈ registry →
  (∃ i : issue, i ∈ parse_output output ∧
                dict_get i "type" = Some (codes d.1.2)) ↔
  ∃ before s, output = before ++ s ∧
              sre_match d.1.1 (length before) s [] ≠ None.
Proof.
  intros Hd. split.
  - intros (i & Hi & Htype).
    destruct (parse_output_kind output d i Hd Hi Htype) as (m & Hm & _).
    destruct (proj1 (finditer_nonempty_iff _ _) (ex_intro _ m Hm))
      as (q & Hq & Hmatch).
    exists (take q output), (drop q output).
    split; [by rewrite take_drop|].
    rewrite length_take, Nat.min_l by done. exact Hmatch.
  - intros (before & s & -> & Hmatch).
    destruct (proj2 (finditer_nonempty_iff d.1.1 (before ++ s))) as [m Hm].
    { exists (length before). rewrite length_app. split; [lia|].
      unfold match_at. by rewrite drop_app_length. }
    destruct (detector_reports _ d m Hd Hm) as (i & Hi & Htype & _).
    by exists i.
Qed.

(** X8. For each registered detector, an issue of its kind is reported
    exactly when its pattern matches at some offset of the log. *)
Theorem kind_reported_iff (output : str) d :
  d ∈ registry →
  (∃ i : issue, i ∈ parse_output output ∧
                dict_get i "type" = Some (codes d.1.2)) ↔
  ∃ q, q ≤ length output ∧ match_at d.1.1 output q ≠ None.
Proof.
  intros Hd. rewrite <- finditer_nonempty_iff. split.
  - intros (i & Hi & Htype).
    destruct (parse_output_kind output d i Hd Hi Htype) as (m & Hm & _).
    by exists m.
  - intros [m Hm].
    destruct (detector_reports _ d m Hd Hm) as (i & Hi & Htype & _).
    by exists i.
Qed.

(** X9. The scan reports nothing exactly when no registered pattern
    matches at any offset of the log. *)
Theorem no_issue_iff_no_match (output : str) :
  parse_output output = [] ↔
  ∀ d q, d ∈ registry → q ≤ length output → match_at d.1.1 output q = None.
Proof.
  split.
  - intros Hnil d q Hd Hq.
    destruct (match_at d.1.1 output q) eqn:Hmatch; [|done]. exfalso.
    destruct (proj2 (finditer_nonempty_iff d.1.1 output)) as [m Hm].
    { exists q. by rewrite Hmatch. }
    destruct (detector_reports _ d m Hd Hm) as (i & Hi & _).
    rewrite Hnil in Hi. by apply elem_of_nil in Hi.
  - intros Hnone. destruct (parse_output output) as [|i l] eqn:Hout; [done|].
    exfalso.
    destruct (parse_output_elem output i) as (d & m & Hd & Hm & _).
    { rewrite Hout. apply list_elem_of_here. }
    destruct (proj1 (finditer_nonempty_iff _ _) (ex_intro _ m Hm))
      as (q & Hq & Hmatch).
    by rewrite (Hnone d q Hd Hq) in Hmatch.
Qed.

(** *** The detector of the pydantic migration *)

Lemma sre_match_literals_end (l : str) pos s mk :
  sre_match (map (fun c => One (Literal c)) l) pos s mk
  = if starts_with l s then Some (pos + length l, mk) else None.
Proof.
  rewrite <- (app_nil_r (map (fun c => One (Literal c)) l)).
  by rewrite sre_match_literals.
Qed.

Lemma pydantic_match_iff pos s mk :
  sre_match pydantic_re pos s mk ≠ None ↔
  ∃ mid rest, s = codes "Field(" ++ mid ++ codes "regex=" ++ rest ∧
              41%N ∉ mid.
Proof.
  unfold pydantic_re, lit. rewrite sre_match_literals.
  change ([MaxRepeatOne 0 (NotLiteral 41%N)] ++ ?p)
    with (MaxRepeatOne 0 (NotLiteral 41%N) :: p).
  cbn [sre_match]. split.
  - destruct (starts_with (codes "Field(") s) eqn:Hfield; [|done].
    destruct (max_repeat _ _ _ _ _ _) as [r|] eqn:Hrep; [|done]. intros _.
    apply max_repeat_chars in Hrep as (n & Hn & Hall & Hk).
    rewrite sre_match_literals_end in Hk.
    destruct (starts_with (codes "regex=") _) eqn:Hregex; [|done].
    set (s1 := drop (length (codes "Field(")) s) in *.
    exists (take n s1), (drop (length (codes "regex=")) (drop n s1)). split.
    + rewrite <- (starts_with_split _ _ Hregex), take_drop.
      by apply starts_with_split.
    + rewrite Forall_forall in Hall. intros Hin%Hall. by vm_compute in Hin.
  - intros (mid & rest & -> & Hmid).
    rewrite starts_with_app, drop_app_length.
    apply (max_repeat_some _ _ _ _ _ _ (length mid)).
    + rewrite length_app. lia.
    + rewrite take_app_length. apply Forall_forall. intros ch Hch. simpl.
      destruct (N.eqb_spec ch 41%N) as [->|]; [done|done].
    + rewrite drop_app_length, sre_match_literals_end, starts_with_app. done.
Qed.

(** X10. The scan reports a PydanticV2Migration issue exactly when the
    log holds the text Field( followed, before any closing parenthesis,
    by the text regex= . *)
Theorem pydantic_reported_iff (output : str) :
  (∃ i : issue, i ∈ parse_output output ∧
                dict_get i "type" = Some (codes "PydanticV2Migration")) ↔
  ∃ before mid after,
    output = before ++ codes "Field(" ++ mid ++ codes "regex=" ++ after ∧
    41%N ∉ mid.
Proof.
  rewrite (kind_reported_split output (pydantic_re, "PydanticV2Migration", 300))
    by (unfold registry; set_solver).
  cbn [fst snd]. split.
  - intros (before & s & -> & (mid & rest & -> & Hmid)%pydantic_match_iff).
    by exists before, mid, rest.
  - intros (before & mid & after & -> & Hmid).
    eexists before, _. split; [done|].
    apply pydantic_match_iff. by exists mid, after.
Qed.

(** *** The detector of the missing dependency *)

Section LiteralCount.

(** A pattern [p] that matches exactly where [l] is written, for an [l]
    that cannot be written at two offsets that overlap. *)
Variable p : pattern.
Variable l : str.
Hypothesis l_not_empty : l ≠ [].
Hypothesis p_literal : ∀ pos s mk,
  sre_match p pos s mk
  = if starts_with l s then Some (pos + length l, mk) else None.
Hypothesis no_overlap : ∀ s j,
  starts_with l s = true → 0 < j < length l → starts_with l (drop j s) = false.

Lemma scan_literal_count pos s inside :
  (∀ j, j < inside → starts_with l (drop j s) = false) →
  length (scan p pos s inside) = occurrences l s.
Proof using l_not_empty p_literal no_overlap.
  revert pos inside. induction s as [|c s IH]; intros pos [|n] Hin; simpl;
    rewrite ?p_literal.
  - destruct l; [done|]. done.
  - destruct l; [done|]. done.
  - destruct (starts_with l (c :: s)) eqn:Hhere; simpl; f_equal.
    + apply IH. intros j Hj. apply (no_overlap (c :: s) (S j) Hhere). lia.
    + apply IH. intros j Hj. lia.
  - pose proof (Hin 0 ltac:(lia)) as H0. simpl in H0. rewrite H0. simpl.
    apply IH. intros j Hj. apply (Hin (S j)). lia.
Qed.

End LiteralCount.

Lemma starts_with_lookup (l s : str) j c :
  starts_with l s = true → l !! j = Some c → s !! j = Some c.
Proof.
  revert s j. induction l as [|d l IH]; intros s j; [done|]. simpl.
  destruct s as [|e s]; [done|].
  destruct (N.eqb_spec e d) as [->|]; [|done]. simpl.
  destruct j as [|j]; simpl; [done|]. apply IH.
Qed.

Lemma restricted_first_char j :
  codes RESTRICTED !! j = Some 77%N → j = 0.
Proof.
  set (l := codes RESTRICTED). vm_compute in l. subst l.
  do 55 (destruct j as [|j]; [simpl; intros H; first [reflexivity|discriminate H]|]).
  simpl. intros H. discriminate H.
Qed.

Lemma restricted_no_overlap s j :
  starts_with (codes RESTRICTED) s = true →
  0 < j < length (codes RESTRICTED) →
  starts_with (codes RESTRICTED) (drop j s) = false.
Proof.
  intros Hhere Hj.
  destruct (starts_with (codes RESTRICTED) (drop j s)) eqn:Hthere; [|done].
  exfalso.
  pose proof (starts_with_lookup _ _ 0 77%N Hthere eq_refl) as H0.
  unfold str in H0. rewrite lookup_drop, Nat.add_0_r in H0.
  destruct (lookup_lt_is_Some_2 (codes RESTRICTED) j) as [c Hc]; [lia|].
  pose proof (starts_with_lookup _ _ j c Hhere Hc) as Hj'.
  unfold str in *. rewrite H0 in Hj'. injection Hj' as <-.
  apply restricted_first_char in Hc. lia.
Qed.

(** The MissingDependency issues are those of the second detector. *)
Lemma missing_dependency_block (output : str) :
  length (filter (fun i : issue =>
                    dict_get i "type" = Some (codes "MissingDependency"))
                 (parse_output output))
  = length (finditer restricted_re output).
Proof.
  unfold parse_output. rewrite !for_append_spec, !filter_app.
  rewrite (filter_type_other _ (codes "MissingOptionalImport"));
    [|by vm_compute|done].
  rewrite (filter_type_same (codes "MissingDependency")); [|done].
  rewrite (filter_type_other _ (codes "PydanticV2Migration"));
    [|by vm_compute|done].
  rewrite (filter_type_other _ (codes "UnknownPytestMarker"));
    [|by vm_compute|done].
  rewrite (filter_type_other _ (codes "ImportError"));
    [|by vm_compute|done].
  by rewrite filter_nil, !app_nil_r, app_nil_l, length_map.
Qed.

(** X11. The scan reports one MissingDependency issue for each offset at
    which ModuleNotFoundError: No module named 'RestrictedPython' is
    written: repeated errors are neither merged nor dropped. *)
Theorem missing_dependency_count (output : str) :
  length (filter (fun i : issue =>
                    dict_get i "type" = Some (codes "MissingDependency"))
                 (parse_output output))
  = occurrences (codes RESTRICTED) output.
Proof.
  rewrite missing_dependency_block. unfold finditer.
  apply scan_literal_count.
  - by vm_compute.
  - apply restricted_match.
  - apply restricted_no_overlap.
  - intros j Hj. lia.
Qed.

(** *** The detector of the missing Optional import *)

(** A pattern that ends with a literal character only matches in a subject
    that holds the character. *)
Lemma sre_match_last_literal (p : pattern) (c : char) pos s mk r :
  sre_match (p ++ [One (Literal c)]) pos s mk = Some r → c ∈ s.
Proof.
  revert pos s mk. induction p as [|op p IH]; intros pos s mk H; simpl in H.
  - destruct s as [|ch s]; [done|].
    destruct (N.eqb_spec ch c) as [->|]; [|done]. apply list_elem_of_here.
  - assert (∀ n pos mk, sre_match (p ++ [One (Literal c)]) pos (drop n s) mk
                        = Some r → c ∈ s) as Hdrop.
    { intros n pos' mk' Hin%IH. rewrite <- (take_drop n s).
      apply elem_of_app. by right. }
    destruct op as [cs|lo cs|lo cs|i].
    + destruct s as [|ch s]; [done|].
      destruct (charset_match cs ch); [|done].
      apply list_elem_of_further. by eapply IH.
    + apply max_repeat_inv in H as (n & _ & H). by eapply Hdrop.
    + apply min_repeat_inv in H as (n & _ & H). by eapply Hdrop.
    + by eapply (Hdrop 0).
Qed.

Lemma app_two_last (l : pattern) a b : l ++ [a; b] = (l ++ [a]) ++ [b].
Proof. by rewrite <- app_assoc. Qed.

Lemma sre_match_ends_with (l : pattern) a (c : char) pos s r :
  sre_match (l ++ [a; One (Literal c)]) pos s [] = Some r → c ∈ s.
Proof.
  intros H. rewrite app_two_last in H. by apply sre_match_last_literal in H.
Qed.

Lemma optional_match_newline pos s r :
  sre_match optional_re pos s [] = Some r → NEWLINE ∈ s.
Proof. apply sre_match_ends_with. Qed.

(** [kind_reported_split] for a detector given by its three parts. *)
Lemma kind_reported_at (output : str) (p : pattern) (kind : string) (w : nat) :
  (p, kind, w) ∈ registry →
  (∃ i : issue, i ∈ parse_output output ∧
                dict_get i "type" = Some (codes kind)) ↔
  ∃ before s, output = before ++ s ∧
              sre_match p (length before) s [] ≠ None.
Proof. intros Hd. exact (kind_reported_split output (p, kind, w) Hd). Qed.

(** X12. A MissingOptionalImport issue is only reported for a log that
    holds a line break: the error line is not found in a log of one
    unterminated line. *)
Theorem optional_needs_newline (output : str) (i : issue) :
  i ∈ parse_output output →
  dict_get i "type" = Some (codes "MissingOptionalImport") →
  NEWLINE ∈ output.
Proof.
  intros Hi Htype.
  assert ((optional_re, "MissingOptionalImport", 300) ∈ registry) as Hd
    by (unfold registry; apply list_elem_of_here).
  destruct (proj1 (kind_reported_at output _ _ _ Hd))
    as (before & s & -> & Hmatch).
  { exists i. split; [exact Hi|exact Htype]. }
  destruct (sre_match optional_re (length before) s []) as [r|] eqn:H.
  - apply optional_match_newline in H. apply elem_of_app. right. exact H.
  - exfalso. apply Hmatch. reflexivity.
Qed.

(** A run of one-character operations consumes the characters they match. *)
Lemma sre_match_ones (ops p : pattern) (v rest : str) pos mk :
  Forall2 (fun op ch => ∃ cs, op = One cs ∧ charset_match cs ch = true) ops v →
  sre_match (ops ++ p) pos (v ++ rest) mk
  = sre_match p (pos + length v) rest mk.
Proof.
  intros H. revert pos.
  induction H as [|op ch ops v (cs & -> & Hch) _ IH]; intros pos; simpl.
  - by rewrite Nat.add_0_r.
  - rewrite Hch, IH. f_equal. lia.
Qed.

(** Under IGNORECASE a literal of the pattern matches the ASCII characters
    that differ from it by case at most. *)
Lemma literal_ignore_match (av ch : char) :
  (ch < 128)%N → ascii_lower ch = ascii_lower av →
  ∃ cs, literal_ignore av = One cs ∧ charset_match cs ch = true.
Proof.
  intros Hch Hlow. unfold literal_ignore.
  destruct (ascii_isupper av || ascii_islower av) eqn:Hletter.
  - assert (lower_unicode ch = ascii_lower av) as Hlu.
    { unfold lower_unicode. by destruct (N.ltb_spec ch 128); [|lia]. }
    destruct (ignorecase_fixes (ascii_lower av)) as [|f fixes];
      eexists; (split; [reflexivity|]); simpl; rewrite Hlu, N.eqb_refl; done.
  - eexists. split; [reflexivity|]. simpl. apply N.eqb_eq.
    apply orb_false_iff in Hletter as [Hup Hlo].
    unfold ascii_lower in Hlow. rewrite Hup in Hlow.
    unfold ascii_isupper, ascii_islower in *.
    destruct (65 <=? ch)%N eqn:H1, (ch <=? 90)%N eqn:H2; simpl in Hlow;
      try done.
    subst av. apply N.leb_le in H1, H2.
    apply andb_false_iff in Hlo as [Hlo|Hlo]; apply N.leb_gt in Hlo; lia.
Qed.

Lemma lit_ignore_match (l v : str) :
  Forall (fun c => (c < 128)%N) v →
  map ascii_lower v = map ascii_lower l →
  Forall2 (fun op ch => ∃ cs, op = One cs ∧ charset_match cs ch = true)
          (map literal_ignore l) v.
Proof.
  revert v. induction l as [|av l IH]; intros [|ch v] Hv Heq; try done.
  apply Forall_cons in Hv as [Hch Hv]. injection Heq as Hlow Heq.
  simpl. constructor; [by apply literal_ignore_match|by apply IH].
Qed.

(** X13. The error line for Optional is found in any mix of upper and
    lower case: a log that holds an ASCII text equal to
    NameError: name 'Optional' is not defined up to the case of its
    letters, with a line break somewhere after it, gets a
    MissingOptionalImport issue. *)
Theorem optional_any_case (before v rest : str) :
  Forall (fun c => (c < 128)%N) v →
  map ascii_lower v = map ascii_lower (codes OPTIONAL_ERROR) →
  NEWLINE ∈ rest →
  ∃ i : issue,
    i ∈ parse_output (before ++ v ++ rest) ∧
    dict_get i "type" = Some (codes "MissingOptionalImport").
Proof.
  intros Hv Hlow Hnl.
  apply (kind_reported_at _ optional_re "MissingOptionalImport" 300);
    [unfold registry; apply list_elem_of_here|].
  exists before, (v ++ rest). split; [reflexivity|].
  unfold optional_re, lit_ignore.
  rewrite (sre_match_ones _ _ _ _ _ _ (lit_ignore_match _ _ Hv Hlow)).
  apply min_repeat_newline. exact Hnl.
Qed.

(** *** The detector of the unknown marker *)

Lemma sre_match_lit (x : string) (p : pattern) pos s mk :
  sre_match (lit x ++ p) pos s mk
  = if starts_with (codes x) s
    then sre_match p (pos + length (codes x)) (drop (length (codes x)) s) mk
    else None.
Proof. apply sre_match_literals. Qed.

Lemma sre_match_max (lo : nat) (cs : charset) (p : pattern) pos s mk :
  sre_match (MaxRepeatOne lo cs :: p) pos s mk
  = max_repeat cs lo (sre_match p) pos s mk.
Proof. reflexivity. Qed.

Lemma sre_match_one (cs : charset) (p : pattern) pos ch s mk :
  sre_match (One cs :: p) pos (ch :: s) mk
  = if charset_match cs ch then sre_match p (S pos) s mk else None.
Proof. reflexivity. Qed.

Lemma sre_match_one_nil (cs : charset) (p : pattern) pos mk :
  sre_match (One cs :: p) pos [] mk = None.
Proof. reflexivity. Qed.

Lemma sre_match_mark (i : nat) (p : pattern) pos s mk :
  sre_match (Mark i :: p) pos s mk = sre_match p pos s ((i, pos) :: mk).
Proof. reflexivity. Qed.

(** A repetition of at least one character took a first character. *)
Lemma max_repeat_first cs (k : cont) pos s mk r :
  max_repeat cs 1 k pos s mk = Some r →
  ∃ ch s', s = ch :: s' ∧ charset_match cs ch = true.
Proof.
  intros (n & Hn & Hall & _)%max_repeat_chars.
  destruct s as [|ch s']; [simpl in Hn; lia|].
  destruct n as [|n]; [lia|]. simpl in Hall.
  apply Forall_cons in Hall as [Hch _]. by exists ch, s'.
Qed.

Lemma marker_match_iff pos s mk :
  sre_match marker_re pos s mk ≠ None ↔
  ∃ mid c w rest,
    s = codes "ERROR" ++ mid ++ [c] ++ codes "nknown pytest.mark."
        ++ [w] ++ rest ∧
    (NEWLINE ∉ mid) ∧ (c = 85%N ∨ c = 117%N) ∧ isword w = true.
Proof.
  unfold marker_re. rewrite sre_match_lit.
  change ([MaxRepeatOne 0 Any; One (InSet [85%N; 117%N])] ++ ?p)
    with (MaxRepeatOne 0 Any :: One (InSet [85%N; 117%N]) :: p).
  rewrite sre_match_max. split.
  - destruct (starts_with (codes "ERROR") s) eqn:Herror;
      [|intros H; by destruct H].
    destruct (max_repeat _ _ _ _ _ _) as [r|] eqn:Hrep;
      [|intros H; by destruct H].
    intros _.
    apply max_repeat_chars in Hrep as (n & Hn & Hall & Hk).
    set (s1 := drop (length (codes "ERROR")) s) in *.
    destruct (drop n s1) as [|c s2] eqn:Hs2;
      [by rewrite sre_match_one_nil in Hk|].
    rewrite sre_match_one in Hk.
    destruct (charset_match (InSet [85%N; 117%N]) c) eqn:Hc; [|done].
    rewrite sre_match_lit in Hk.
    destruct (starts_with (codes "nknown pytest.mark.") s2) eqn:Hunknown;
      [|done].
    rewrite sre_match_mark, sre_match_max in Hk.
    apply max_repeat_first in Hk as (w & rest & Hs3 & Hw).
    exists (take n s1), c, w, rest. split_and!.
    + assert (s = codes "ERROR" ++ s1) as Hs by (by apply starts_with_split).
      assert (s1 = take n s1 ++ c :: s2) as Hs1
        by (by rewrite <- Hs2, take_drop).
      assert (s2 = codes "nknown pytest.mark." ++ w :: rest) as Hs2'
        by (by rewrite <- Hs3; apply starts_with_split).
      clearbody s1. rewrite Hs. f_equal. rewrite Hs1 at 1. f_equal.
      by rewrite Hs2'.
    + rewrite Forall_forall in Hall. intros Hin%Hall. by vm_compute in Hin.
    + simpl in Hc. rewrite orb_false_r in Hc.
      apply orb_true_iff in Hc as [Hc|Hc]; apply N.eqb_eq in Hc; auto.
    + exact Hw.
  - intros (mid & c & w & rest & -> & Hmid & Hc & Hw).
    rewrite starts_with_app, drop_app_length.
    apply (max_repeat_some _ _ _ _ _ _ (length mid)).
    + rewrite length_app. lia.
    + rewrite take_app_length. apply Forall_forall. intros ch Hch. simpl.
      destruct (N.eqb_spec ch NEWLINE) as [->|]; [done|done].
    + rewrite drop_app_length.
      change ([c] ++ ?x) with (c :: x). rewrite sre_match_one.
      assert (charset_match (InSet [85%N; 117%N]) c = true) as ->.
      { destruct Hc as [-> | ->]; reflexivity. }
      rewrite sre_match_lit, starts_with_app, drop_app_length.
      rewrite sre_match_mark, sre_match_max.
      apply (max_repeat_some _ _ _ _ _ _ 1).
      * simpl. lia.
      * simpl. constructor; [exact Hw|constructor].
      * simpl. discriminate.
Qed.

(** X14. The scan reports an UnknownPytestMarker issue exactly when the
    log holds the text ERROR followed on the same line by Unknown or
    unknown, then by pytest.mark. and one word character at least. *)
Theorem marker_reported_iff (output : str) :
  (∃ i : issue, i ∈ parse_output output ∧
                dict_get i "type" = Some (codes "UnknownPytestMarker")) ↔
  ∃ before mid c w after,
    output = before ++ codes "ERROR" ++ mid ++ [c]
             ++ codes "nknown pytest.mark." ++ [w] ++ after ∧
    (NEWLINE ∉ mid) ∧ (c = 85%N ∨ c = 117%N) ∧ isword w = true.
Proof.
  rewrite (kind_reported_at output marker_re "UnknownPytestMarker" 200)
    by (unfold registry; do 3 apply list_elem_of_further; apply list_elem_of_here).
  split.
  - intros (before & s & -> & Hmatch). apply marker_match_iff in Hmatch.
    destruct Hmatch as (mid & c & w & rest & -> & Hrest).
    by exists before, mid, c, w, rest.
  - intros (before & mid & c & w & after & -> & Hrest).
    eexists before, _. split; [reflexivity|].
    apply marker_match_iff. by exists mid, c, w, after.
Qed.

(** *** The detector of the broken import *)

(** A successful match of the import pattern, taken apart. *)
Lemma import_match_inv pos s e mk :
  sre_match import_re pos s [] = Some (e, mk) →
  ∃ name module rest,
    s = codes IMPORT_PREFIX ++ name ++ codes "' from '" ++ module
        ++ codes "'" ++ rest ∧
    name ≠ [] ∧ Forall (fun c => isword c = true) name ∧
    module ≠ [] ∧ (QUOTE ∉ module) ∧
    let p0 := pos + length (codes IMPORT_PREFIX) in
    let p1 := p0 + length name in
    let p2 := p1 + length (codes "' from '") in
    let p3 := p2 + length module in
    mk = [(3, p3); (2, p2); (1, p1); (0, p0)].
Proof.
  unfold import_re. rewrite sre_match_lit.
  destruct (starts_with (codes IMPORT_PREFIX) s) eqn:Hprefix; [|done].
  set (s1 := drop (length (codes IMPORT_PREFIX)) s).
  set (p0 := pos + length (codes IMPORT_PREFIX)).
  change ([Mark 0; MaxRepeatOne 1 CategoryWord; Mark 1] ++ ?p)
    with (Mark 0 :: MaxRepeatOne 1 CategoryWord :: Mark 1 :: p).
  rewrite sre_match_mark, sre_match_max.
  intros (n1 & Hn1 & Hname & Hk)%max_repeat_chars.
  rewrite sre_match_mark, sre_match_lit in Hk.
  destruct (starts_with (codes "' from '") (drop n1 s1)) eqn:Hfrom; [|done].
  set (s2 := drop (length (codes "' from '")) (drop n1 s1)) in *.
  change ([Mark 2; MaxRepeatOne 1 (NotLiteral QUOTE); Mark 3] ++ ?p)
    with (Mark 2 :: MaxRepeatOne 1 (NotLiteral QUOTE) :: Mark 3 :: p) in Hk.
  rewrite sre_match_mark, sre_match_max in Hk.
  apply max_repeat_chars in Hk as (n2 & Hn2 & Hmodule & Hk).
  rewrite sre_match_mark in Hk. unfold lit in Hk.
  rewrite sre_match_literals_end in Hk.
  destruct (starts_with (codes "'") (drop n2 s2)) eqn:Hquote; [|done].
  injection Hk as _ Hmk.
  assert (s = codes IMPORT_PREFIX ++ s1) as Hs by (by apply starts_with_split).
  assert (s1 = take n1 s1 ++ codes "' from '" ++ s2) as Hs1.
  { rewrite <- (take_drop n1 s1) at 1. f_equal. by apply starts_with_split. }
  assert (s2 = take n2 s2 ++ codes "'" ++ drop (length (codes "'")) (drop n2 s2))
    as Hs2.
  { rewrite <- (take_drop n2 s2) at 1. f_equal. by apply starts_with_split. }
  clearbody s2 s1.
  exists (take n1 s1), (take n2 s2), (drop (length (codes "'")) (drop n2 s2)).
  split_and!.
  - rewrite Hs. f_equal. rewrite Hs1 at 1. f_equal. f_equal. exact Hs2.
  - intros Hnil%(f_equal length). rewrite length_take in Hnil. simpl in Hnil. lia.
  - exact Hname.
  - intros Hnil%(f_equal length). rewrite length_take in Hnil. simpl in Hnil. lia.
  - rewrite Forall_forall in Hmodule. intros Hin%Hmodule. by vm_compute in Hin.
  - cbv zeta. rewrite !length_take, !Nat.min_l by lia. by rewrite <- Hmk.
Qed.

Lemma take_drop_middle (before x after : str) a b :
  a = length before → b = a + length x →
  take (b - a) (drop a (before ++ x ++ after)) = x.
Proof.
  intros -> ->. rewrite drop_app_length.
  replace (length before + length x - length before) with (length x) by lia.
  apply take_app_length.
Qed.

(** What an issue of kind ImportError holds, in terms of the match. *)
Lemma import_issue_form (output : str) (i : issue) :
  i ∈ parse_output output →
  dict_get i "type" = Some (codes "ImportError") →
  ∃ m, m ∈ finditer import_re output ∧
    dict_get i "imported_name" = Some (group_str output m 1) ∧
    dict_get i "from_module" = Some (group_str output m 2) ∧
    dict_get i "fix"
    = Some (codes "Проверить экспорт '" ++ group_str output m 1
            ++ codes "' из модуля '" ++ group_str output m 2 ++ codes "'").
Proof.
  unfold parse_output. rewrite !for_append_spec.
  rewrite !elem_of_app, !list_elem_of_fmap.
  intros [[[[[Hi|Hi]|Hi]|Hi]|Hi]|Hi] Htype;
    [by apply elem_of_nil in Hi|destruct Hi as (m & -> & Hm)..];
    first [ by (vm_compute in Htype; discriminate)
          | exists m; split; [exact Hm|]; split_and!; reflexivity ].
Qed.

(** X15. Every issue of kind ImportError carries a non-empty name made of
    word characters and a non-empty module without quote, its fix line is
    written with both, and the log holds the import error that they
    spell. *)
Theorem import_issue_fields (output : str) (i : issue) :
  i ∈ parse_output output →
  dict_get i "type" = Some (codes "ImportError") →
  ∃ name module : str,
    dict_get i "imported_name" = Some name ∧
    dict_get i "from_module" = Some module ∧
    dict_get i "fix"
    = Some (codes "Проверить экспорт '" ++ name
            ++ codes "' из модуля '" ++ module ++ codes "'") ∧
    name ≠ [] ∧ Forall (fun c => isword c = true) name ∧
    module ≠ [] ∧ (QUOTE ∉ module) ∧
    substring_of (codes IMPORT_PREFIX ++ name ++ codes "' from '"
                  ++ module ++ codes "'") output.
Proof.
  intros Hi Htype.
  destruct (import_issue_form output i Hi Htype)
    as (m & Hm & Hname & Hmodule & Hfix).
  apply scan_sound in Hm as (j & Hj & _ & Hmatch). simpl in Hmatch.
  apply import_match_inv in Hmatch
    as (name & module & rest & Hs & Hn1 & Hn2 & Hm1 & Hm2 & Hmarks).
  cbv zeta in Hmarks.
  assert (output = take j output ++ drop j output) as Hout
    by (by rewrite take_drop).
  rewrite Hs in Hout. clear Hs.
  assert (length (take j output) = j) as Hlen
    by (rewrite length_take; lia).
  assert (group_str output m 1 = name) as Hg1.
  { rewrite (group_str_marks _ _ 1
               (j + length (codes IMPORT_PREFIX))
               (j + length (codes IMPORT_PREFIX) + length name))
      by (rewrite Hmarks; reflexivity).
    rewrite Hout at 1. rewrite (app_assoc (take j output)).
    apply take_drop_middle; rewrite ?length_app, ?Hlen; lia. }
  assert (group_str output m 2 = module) as Hg2.
  { rewrite (group_str_marks _ _ 2
               (j + length (codes IMPORT_PREFIX) + length name
                + length (codes "' from '"))
               (j + length (codes IMPORT_PREFIX) + length name
                + length (codes "' from '") + length module))
      by (rewrite Hmarks; reflexivity).
    rewrite Hout at 1.
    rewrite (app_assoc (take j output)), (app_assoc _ name),
      (app_assoc _ (codes "' from '")).
    apply take_drop_middle; rewrite ?length_app, ?Hlen; lia. }
  rewrite Hg1, Hg2 in *.
  exists name, module. split_and!; try done.
  exists (take j output), rest. rewrite Hout at 1.
  by rewrite <- !app_assoc.
Qed.

(** *** The size of a context *)



(** ** Splitting a text into lines and joining them *)

Lemma join_one (sep x : str) : join sep [x] = x.
Proof. reflexivity. Qed.

Lemma join_cons (sep x y : str) (l : list str) :
  join sep (x :: y :: l) = x ++ sep ++ join sep (y :: l).
Proof. reflexivity. Qed.

Lemma split_lines_not_nil (s : str) : split_lines s ≠ [].
Proof.
  pose proof (split_lines_length s) as H. intros Heq. rewrite Heq in H.
  simpl in H. lia.
Qed.

Lemma split_lines_cons (c : char) (s : str) :
  c ≠ NEWLINE →
  ∃ l ls, split_lines s = l :: ls ∧ split_lines (c :: s) = (c :: l) :: ls.
Proof.
  intros Hc. simpl. destruct (N.eqb_spec c NEWLINE) as [|_]; [done|].
  destruct (split_lines s) as [|l ls] eqn:Hs; [by apply split_lines_not_nil in Hs|].
  by exists l, ls.
Qed.

Lemma join_split_lines (s : str) : join [NEWLINE] (split_lines s) = s.
Proof.
  induction s as [|c s IH]; [done|].
  destruct (N.eqb_spec c NEWLINE) as [->|Hc].
  - simpl split_lines. rewrite ?N.eqb_refl.
    destruct (split_lines s) as [|l ls] eqn:Hs;
      [by apply split_lines_not_nil in Hs|].
    rewrite join_cons, IH. done.
  - destruct (split_lines_cons c s Hc) as (l & ls & Hs & ->).
    rewrite Hs in IH. destruct ls as [|l' ls].
    + rewrite join_one in *. by rewrite IH.
    + rewrite join_cons in *. by rewrite <- IH.
Qed.

Lemma split_lines_no_newline (l : str) :
  NEWLINE ∉ l → split_lines l = [l].
Proof.
  induction l as [|c l IH]; [done|]. intros Hnl.
  apply not_elem_of_cons in Hnl as [Hc Hl].
  destruct (split_lines_cons c l (not_eq_sym Hc)) as (l' & ls & Hs & ->).
  rewrite (IH Hl) in Hs. by injection Hs as <- <-.
Qed.

Lemma split_lines_app_newline (l s : str) :
  NEWLINE ∉ l → split_lines (l ++ NEWLINE :: s) = l :: split_lines s.
Proof.
  induction l as [|c l IH]; intros Hnl.
  - simpl. by rewrite ?N.eqb_refl.
  - apply not_elem_of_cons in Hnl as [Hc Hl].
    destruct (split_lines_cons c (l ++ NEWLINE :: s) (not_eq_sym Hc))
      as (l' & ls & Hs & Hcs).
    simpl app. rewrite Hcs. rewrite (IH Hl) in Hs. by injection Hs as <- <-.
Qed.

Lemma split_lines_join (lines : list str) :
  lines ≠ [] → Forall (fun l => NEWLINE ∉ l) lines →
  split_lines (join [NEWLINE] lines) = lines.
Proof.
  induction lines as [|x [|y lines] IH]; intros Hne Hall; [done|..].
  - rewrite join_one. apply split_lines_no_newline.
    by apply Forall_cons in Hall as [? _].
  - apply Forall_cons in Hall as [Hx Hall]. rewrite join_cons.
    change ([NEWLINE] ++ ?s) with (NEWLINE :: s).
    rewrite split_lines_app_newline by done. f_equal. by apply IH.
Qed.

Lemma split_lines_newline_free (s : str) :
  Forall (fun l => NEWLINE ∉ l) (split_lines s).
Proof.
  induction s as [|c s IH].
  - simpl. constructor; [by intros ?%elem_of_nil|constructor].
  - destruct (N.eqb_spec c NEWLINE) as [->|Hc].
    + simpl. rewrite ?N.eqb_refl.
      constructor; [by intros ?%elem_of_nil|done].
    + destruct (split_lines_cons c s Hc) as (l & ls & Hs & ->).
      rewrite Hs in IH. apply Forall_cons in IH as [Hl Hls].
      constructor; [|done]. by apply not_elem_of_cons.
Qed.

(** ** Properties of [fix_imports] *)

Lemma starts_with_nil_r (n : str) : starts_with n [] = true → n = [].
Proof. by destruct n. Qed.

Lemma starts_with_app_l (n a b : str) :
  starts_with n a = true → starts_with n (a ++ b) = true.
Proof.
  revert a. induction n as [|c n IH]; intros a; [done|].
  destruct a as [|d a]; [done|]. simpl.
  destruct (d =? c)%N; [|done]. simpl. apply IH.
Qed.

Lemma contains_app_r (n a b : str) :
  contains n b = true → contains n (a ++ b) = true.
Proof.
  intros Hb. induction a as [|c a IH]; [done|].
  simpl. rewrite IH. apply orb_true_r.
Qed.

Lemma contains_app_l (n a b : str) :
  contains n a = true → contains n (a ++ b) = true.
Proof.
  induction a as [|c a IH]; simpl.
  - rewrite orb_false_r. intros ->%starts_with_nil_r. by destruct b.
  - intros [H|H]%orb_true_iff.
    + change (c :: a ++ b) with ((c :: a) ++ b).
      by rewrite (starts_with_app_l _ _ _ H).
    + rewrite (IH H). apply orb_true_r.
Qed.

Lemma contains_join (n sep : str) (lines : list str) (l : str) :
  l ∈ lines → contains n l = true → contains n (join sep lines) = true.
Proof.
  intros Hin Hl. induction lines as [|x [|y lines] IH].
  - by apply elem_of_nil in Hin.
  - apply list_elem_of_singleton in Hin as ->. by rewrite join_one.
  - rewrite join_cons. apply elem_of_cons in Hin as [->|Hin].
    + by apply contains_app_l.
    + apply contains_app_r, contains_app_r. by apply IH.
Qed.

Lemma contains_char (c : char) (s : str) :
  contains [c] s = true → c ∈ s.
Proof.
  induction s as [|d s IH]; simpl; [done|].
  intros [H|H]%orb_true_iff.
  - rewrite andb_true_r in H. apply N.eqb_eq in H as ->. apply list_elem_of_here.
  - apply list_elem_of_further. by apply IH.
Qed.

Lemma replace_char_contains (s : str) (old : char) (new n : str) :
  old ∈ s → contains n new = true →
  contains n (replace_char s old new) = true.
Proof.
  intros Hin Hnew. unfold replace_char.
  induction s as [|c s IH]; [by apply elem_of_nil in Hin|]. simpl.
  destruct (N.eqb_spec c old) as [->|Hc].
  - by apply contains_app_l.
  - apply contains_app_r, IH. apply elem_of_cons in Hin as [?|?]; [congruence|done].
Qed.

Lemma replace_char_newline_free (s : str) (old : char) (new : str) :
  NEWLINE ∉ s → NEWLINE ∉ new → NEWLINE ∉ replace_char s old new.
Proof.
  intros Hs Hnew. unfold replace_char.
  induction s as [|c s IH]; simpl; [by intros ?%elem_of_nil|].
  apply not_elem_of_cons in Hs as [Hc Hs].
  intros [Hin|Hin]%elem_of_app; [|by apply IH].
  destruct (c =? old)%N; [done|].
  apply list_elem_of_singleton in Hin. congruence.
Qed.

Lemma rstrip_prefix (s : str) : ∃ r, s = rstrip s ++ r.
Proof.
  unfold rstrip. destruct (lstrip_suffix (rev s)) as [l Hl].
  exists (rev l). by rewrite <- rev_app_distr, <- Hl, rev_involutive.
Qed.

Lemma optional_added_contains (old new : str) :
  optional_added old new → contains (codes "Optional") new = true.
Proof.
  intros [->|[Hin ->]].
  - by apply contains_app_r.
  - by apply replace_char_contains.
Qed.

Lemma optional_added_newline_free (old new : str) :
  optional_added old new → NEWLINE ∉ old → NEWLINE ∉ new.
Proof.
  intros [->|[Hin ->]] Hold.
  - destruct (rstrip_prefix old) as [r Hr].
    intros [Hin|Hin]%elem_of_app.
    + apply Hold. rewrite Hr. apply elem_of_app. by left.
    + vm_compute in Hin.
      repeat (apply elem_of_cons in Hin as [Hin|Hin]; [discriminate|]).
      by apply elem_of_nil in Hin.
  - apply replace_char_newline_free; [done|].
    intros Hin'. vm_compute in Hin'.
    repeat (apply elem_of_cons in Hin' as [Hin'|Hin']; [discriminate|]).
    by apply elem_of_nil in Hin'.
Qed.

(** When Step 1 returns, it has changed one line of the text. *)
Lemma add_to_typing_import_some (lines todo : list str) (i : nat) res :
  (∀ idx l, todo !! idx = Some l → lines !! (i + idx) = Some l) →
  add_to_typing_import lines todo i = Some res →
  ∃ k old new,
    lines !! k = Some old ∧ optional_added old new ∧
    res = (join [NEWLINE] (<[k := new]> lines), true).
Proof.
  revert i res. induction todo as [|line todo IH]; intros i res Hlines; [done|].
  assert (∀ res', add_to_typing_import lines todo (S i) = Some res' →
          ∃ k old new, lines !! k = Some old ∧ optional_added old new ∧
            res' = (join [NEWLINE] (<[k := new]> lines), true)) as Hnext.
  { intros res' H. apply (IH (S i)); [|done]. intros idx l Hl.
    rewrite Nat.add_succ_comm. by apply Hlines. }
  cbn [add_to_typing_import].
  destruct (re_match typing_import_re line); [|by apply Hnext].
  destruct (contains (codes "Optional") line); [by apply Hnext|].
  cbn [negb].
  destruct (endswith (rstrip line) [CLOSE_PAREN]).
  - destruct (lines !! closing_paren_line (drop (i + 1) lines) (i + 1))
      as [lj|] eqn:Hlj; [|by apply Hnext].
    destruct (contains [CLOSE_PAREN] lj) eqn:Hparen; [|by apply Hnext].
    intros [= <-]. eexists _, lj, _. split; [exact Hlj|].
    split; [|reflexivity]. right. split; [|reflexivity].
    by apply contains_char.
  - intros [= <-]. exists i, line, (rstrip line ++ codes ", Optional").
    split; [|split; [by left|reflexivity]].
    rewrite <- (Nat.add_0_r i). by apply Hlines.
Qed.

Lemma add_to_typing_import_none (lines todo : list str) (i : nat) :
  Forall (fun l => re_match typing_import_re l = false) todo →
  add_to_typing_import lines todo i = None.
Proof.
  intros H. revert i. induction H as [|line todo Hline _ IH]; intros i; [done|].
  cbn [add_to_typing_import]. rewrite Hline. apply IH.
Qed.

(** What Step 2 keeps true of the lines it has seen, and so of its
    result. *)
Lemma import_insert_index_spec (seen todo : list str) (idx : nat) :
  idx ≤ length seen →
  Forall (fun l => leading_line l = true) seen →
  (idx = 0 ∨ ∃ l, seen !! (idx - 1) = Some l ∧ import_line l = true) →
  let k := import_insert_index todo (length seen) idx in
  k ≤ length (seen ++ todo) ∧
  Forall (fun l => leading_line l = true) (take k (seen ++ todo)) ∧
  (k = 0 ∨ ∃ l, (seen ++ todo) !! (k - 1) = Some l ∧ import_line l = true).
Proof.
  revert seen idx. induction todo as [|line todo IH]; intros seen idx Hidx Hseen Hlast.
  - simpl. rewrite app_nil_r. split_and!; [done|by apply Forall_take|done].
  - assert (∀ idx', idx' ≤ S (length seen) →
      leading_line line = true →
      (idx' = 0 ∨ ∃ l, (seen ++ [line]) !! (idx' - 1) = Some l
                       ∧ import_line l = true) →
      let k := import_insert_index todo (S (length seen)) idx' in
      k ≤ length (seen ++ line :: todo) ∧
      Forall (fun l => leading_line l = true) (take k (seen ++ line :: todo)) ∧
      (k = 0 ∨ ∃ l, (seen ++ line :: todo) !! (k - 1) = Some l
                    ∧ import_line l = true)) as Hstep.
    { intros idx' Hidx' Hline Hlast'.
      pose proof (IH (seen ++ [line]) idx') as IH'.
      rewrite length_app, Nat.add_1_r, <- app_assoc in IH'.
      apply IH'; [done| |done].
      apply Forall_app. split; [done|]. by constructor. }
    assert (idx = 0 ∨ ∃ l, (seen ++ [line]) !! (idx - 1) = Some l
                           ∧ import_line l = true) as Hlast'.
    { destruct Hlast as [?|(l & Hl & ?)]; [by left|right].
      exists l. split; [|done]. by apply lookup_app_l_Some. }
    cbn [import_insert_index]. cbv zeta.
    change (starts_with (codes "import") (strip line)
            || starts_with (codes "from") (strip line))
      with (import_line line).
    destruct (import_line line) eqn:Himport.
    + apply Hstep; [lia|unfold leading_line; by rewrite Himport|].
      right. exists line. split; [|done].
      replace (length seen + 1 - 1) with (length seen) by lia.
      by rewrite list_lookup_middle.
    + destruct (strip line) as [|c stripped] eqn:Hstrip.
      * apply Hstep; [lia| |done].
        unfold leading_line. by rewrite Himport, Hstrip.
      * destruct (starts_with (codes "#") (c :: stripped)) eqn:Hcomment.
        -- apply Hstep; [lia| |done].
           unfold leading_line. rewrite Himport, Hstrip, Hcomment.
           apply orb_true_r.
        -- split_and!.
           ++ rewrite length_app. lia.
           ++ rewrite take_app_le by done. by apply Forall_take.
           ++ destruct Hlast as [?|(l & Hl & ?)]; [by left|right].
              exists l. split; [|done]. by apply lookup_app_l_Some.
Qed.

(** The two ways in which [fix_imports] ends. *)
Lemma fix_imports_cases (text : str) :
  let lines := split_lines text in
  (∃ k old new res,
     add_to_typing_import lines (take 50 lines) 0 = Some res ∧
     lines !! k = Some old ∧ optional_added old new ∧
     fix_imports text = (join [NEWLINE] (<[k := new]> lines), true)) ∨
  (add_to_typing_import lines (take 50 lines) 0 = None ∧
   ∃ k, fix_imports text
        = (join [NEWLINE] (take k lines ++ [OPTIONAL_IMPORT] ++ drop k lines),
           true) ∧
     k ≤ 50 ∧ k ≤ length lines ∧
     Forall (fun l => leading_line l = true) (take k lines) ∧
     (k = 0 ∨ ∃ l, lines !! (k - 1) = Some l ∧ import_line l = true)).
Proof.
  cbv zeta. unfold fix_imports. cbv zeta.
  generalize (split_lines text). intros lines.
  destruct (add_to_typing_import lines (take 50 lines) 0) as [res|] eqn:Hstep1.
  - left. pose proof Hstep1 as Hsome.
    apply add_to_typing_import_some in Hsome as (k & old & new & ? & ? & ->).
    + by exists k, old, new, (join [NEWLINE] (<[k:=new]> lines), true).
    + intros idx l Hl. apply lookup_take_Some in Hl as [Hl _]. exact Hl.
  - right. split; [done|].
    pose proof (import_insert_index_spec [] (take 50 lines) 0
                  ltac:(simpl; lia) ltac:(constructor) ltac:(by left)) as Hk.
    cbv zeta in Hk. simpl length in Hk. rewrite app_nil_l in Hk.
    set (k := import_insert_index (take 50 lines) 0 0) in *.
    destruct Hk as (Hlen & Hlead & Hlast).
    rewrite length_take in Hlen.
    exists k. split_and!; [done|lia|lia| |].
    + rewrite take_take in Hlead.
      by replace (k `min` 50) with k in Hlead by lia.
    + destruct Hlast as [?|(l & Hl & ?)]; [by left|right].
      exists l. split; [|done].
      apply lookup_take_Some in Hl as [Hl _]. exact Hl.
Qed.

Lemma optional_import_newline_free : NEWLINE ∉ OPTIONAL_IMPORT.
Proof.
  intros Hin. vm_compute in Hin.
  repeat (apply elem_of_cons in Hin as [Hin|Hin]; [discriminate|]).
  by apply elem_of_nil in Hin.
Qed.

(** X17. [fix_imports] reports a fix for every text: its flag is always
    true. *)
Theorem fix_imports_always_fixed (text : str) : (fix_imports text).2 = true.
Proof.
  destruct (fix_imports_cases text)
    as [(k & old & new & res & _ & _ & _ & ->)|(_ & k & -> & _)]; reflexivity.
Qed.

(** X18. The text that [fix_imports] returns always holds the word
    Optional. *)
Theorem fix_imports_mentions_optional (text : str) :
  contains (codes "Optional") (fix_imports text).1 = true.
Proof.
  destruct (fix_imports_cases text)
    as [(k & old & new & res & _ & Hk & Hadded & ->)|(_ & k & -> & _)];
    cbn [fst].
  - apply (contains_join _ _ _ new);
      [|by eapply optional_added_contains].
    apply list_elem_of_lookup. exists k.
    apply list_lookup_insert_eq. by eapply lookup_lt_Some.
  - apply (contains_join _ _ _ OPTIONAL_IMPORT); [|by vm_compute].
    apply elem_of_app. right. apply list_elem_of_here.
Qed.

(** X19. [fix_imports] changes the text by one line: either one line of
    the text gets Optional added, at its end or before each of its closing
    parentheses, or the line from typing import Optional is inserted, at
    line 50 at most; all the other lines stay as they are, in order. *)
Theorem fix_imports_lines (text : str) :
  let lines := split_lines text in
  let lines' := split_lines (fix_imports text).1 in
  (∃ k old new, lines !! k = Some old ∧ optional_added old new ∧
                lines' = <[k := new]> lines) ∨
  (∃ k, k ≤ 50 ∧ k ≤ length lines ∧
        lines' = take k lines ++ [OPTIONAL_IMPORT] ++ drop k lines).
Proof.
  cbv zeta.
  pose proof (split_lines_newline_free text) as Hfree.
  destruct (fix_imports_cases text)
    as [(k & old & new & res & _ & Hk & Hadded & ->)
       |(_ & k & -> & Hk50 & Hklen & _)]; cbn [fst].
  - left. exists k, old, new. split_and!; [done..|].
    apply split_lines_join.
    + intros Hnil%(f_equal length). rewrite length_insert in Hnil.
      apply lookup_lt_Some in Hk. simpl in Hnil. lia.
    + apply Forall_insert; [done|].
      eapply optional_added_newline_free; [done|].
      by eapply (Forall_lookup_1 _ _ _ _ Hfree).
  - right. exists k. split_and!; [done..|].
    apply split_lines_join.
    + by destruct (take k (split_lines text)).
    + apply Forall_app. split; [by apply Forall_take|].
      constructor; [apply optional_import_newline_free|by apply Forall_drop].
Qed.

(** X20. When none of the first 50 lines is a from typing import line,
    [fix_imports] inserts the line from typing import Optional: every line
    before the new line is an import, blank or a comment, and the line
    just before it, if there is one, is an import. *)
Theorem fix_imports_inserts_after_imports (text : str) :
  let lines := split_lines text in
  Forall (fun l => re_match typing_import_re l = false) (take 50 lines) →
  ∃ k, fix_imports text
       = (join [NEWLINE] (take k lines ++ [OPTIONAL_IMPORT] ++ drop k lines),
          true) ∧
    k ≤ 50 ∧ k ≤ length lines ∧
    Forall (fun l => leading_line l = true) (take k lines) ∧
    (k = 0 ∨ ∃ l, lines !! (k - 1) = Some l ∧ import_line l = true).
Proof.
  cbv zeta. intros Hnone.
  pose proof (add_to_typing_import_none (split_lines text) _ 0 Hnone) as Hstep1.
  destruct (fix_imports_cases text)
    as [(k & old & new & res & Hsome & _)|(_ & Hinsert)]; [|exact Hinsert].
  rewrite Hstep1 in Hsome. discriminate Hsome.
Qed.

(** Step 1 passes over the lines that are no from typing import line. *)
Lemma add_to_typing_import_skip (lines before todo : list str) (i : nat) :
  Forall (fun l => re_match typing_import_re l = false) before →
  add_to_typing_import lines (before ++ todo) i
  = add_to_typing_import lines todo (i + length before).
Proof.
  intros H. revert i. induction H as [|l before Hl _ IH]; intros i.
  - by rewrite Nat.add_0_r.
  - cbn [app add_to_typing_import length]. rewrite Hl, IH. f_equal. lia.
Qed.

(** The first 50 lines, cut at the first from typing import line. *)
Lemma first_typing_import_split (lines : list str) (t : nat) (line : str) :
  lines !! t = Some line → t < 50 →
  (∀ j l, j < t → lines !! j = Some l → re_match typing_import_re l = false) →
  take 50 lines = take t lines ++ line :: drop (S t) (take 50 lines) ∧
  Forall (fun l => re_match typing_import_re l = false) (take t lines) ∧
  length (take t lines) = t.
Proof.
  intros Ht Ht50 Hfirst.
  assert (take 50 lines !! t = Some line) as Ht' by (by rewrite lookup_take_lt).
  split_and!.
  - rewrite <- (list.take_drop_middle _ _ _ Ht') at 1.
    by rewrite take_take, Nat.min_l by lia.
  - apply Forall_forall. intros l Hl.
    apply list_elem_of_lookup in Hl as [j Hj].
    apply lookup_take_Some in Hj as [Hj Hjt]. by eapply Hfirst.
  - rewrite length_take. apply lookup_lt_Some in Ht. lia.
Qed.

Lemma closing_paren_line_spec (rest : list str) (j : nat) :
  let k := closing_paren_line rest j in
  j ≤ k ∧
  ∀ idx l, idx < k - j → rest !! idx = Some l →
           contains [CLOSE_PAREN] l = false.
Proof.
  revert j. induction rest as [|l rest IH]; intros j; simpl.
  - split; [lia|]. intros idx l Hidx. lia.
  - destruct (contains [CLOSE_PAREN] l) eqn:Hl.
    + split; [lia|]. intros idx l' Hidx. lia.
    + destruct (IH (S j)) as [Hle Hrest]. split; [lia|].
      intros [|idx] l' Hidx; simpl.
      * by intros [= <-].
      * apply Hrest. lia.
Qed.

(** X21. When the first from typing import line of a text is among its
    first 50 lines, does not hold Optional and does not end with a closing
    parenthesis, [fix_imports] appends , Optional to that line, without
    the white space at its end, and changes nothing else. *)
Theorem fix_imports_extends_import (text : str) (t : nat) (line : str) :
  let lines := split_lines text in
  lines !! t = Some line → t < 50 →
  (∀ j l, j < t → lines !! j = Some l → re_match typing_import_re l = false) →
  re_match typing_import_re line = true →
  contains (codes "Optional") line = false →
  endswith (rstrip line) [CLOSE_PAREN] = false →
  fix_imports text
  = (join [NEWLINE] (<[t := rstrip line ++ codes ", Optional"]> lines), true).
Proof.
  cbv zeta. intros Ht Ht50 Hfirst Hmatch Hopt Hend.
  destruct (first_typing_import_split _ _ _ Ht Ht50 Hfirst)
    as (Hsplit & Hbefore & Hlen).
  unfold fix_imports. cbv zeta.
  rewrite Hsplit, (add_to_typing_import_skip _ _ _ _ Hbefore), Hlen.
  cbn [add_to_typing_import]. by rewrite Hmatch, Hopt, Hend.
Qed.

(** X22. When that line ends with a closing parenthesis instead, it is not
    the line that [fix_imports] changes: the first later line that holds a
    closing parenthesis gets , Optional written before each of its
    closing parentheses. *)
Theorem fix_imports_changes_later_line (text : str) (t k : nat) (line lk : str) :
  let lines := split_lines text in
  lines !! t = Some line → t < 50 →
  (∀ j l, j < t → lines !! j = Some l → re_match typing_import_re l = false) →
  re_match typing_import_re line = true →
  contains (codes "Optional") line = false →
  endswith (rstrip line) [CLOSE_PAREN] = true →
  t < k → lines !! k = Some lk → contains [CLOSE_PAREN] lk = true →
  (∀ j l, t < j < k → lines !! j = Some l → contains [CLOSE_PAREN] l = false) →
  fix_imports text
  = (join [NEWLINE]
       (<[k := replace_char lk CLOSE_PAREN (codes ", Optional)")]> lines),
     true).
Proof.
  cbv zeta. unfold fix_imports. cbv zeta.
  generalize (split_lines text).
  intros lines Ht Ht50 Hfirst Hmatch Hopt Hend Htk Hk Hparen Hbetween.
  destruct (first_typing_import_split _ _ _ Ht Ht50 Hfirst)
    as (Hsplit & Hbefore & Hlen).
  rewrite Hsplit, (add_to_typing_import_skip _ _ _ _ Hbefore), Hlen.
  cbn [add_to_typing_import]. rewrite Hmatch, Hopt, Hend. cbn [negb].
  rewrite Nat.add_0_l.
  assert (closing_paren_line (drop (t + 1) lines) (t + 1) = k)
    as ->; [|by rewrite Hk, Hparen].
  assert (∀ rest j, j ≤ k → rest = drop j lines →
          (∀ j' l, j ≤ j' < k → lines !! j' = Some l →
                   contains [CLOSE_PAREN] l = false) →
          closing_paren_line rest j = k) as Hloop.
  { intros rest. induction rest as [|l rest IH]; intros j Hj Hrest Hno.
    - apply lookup_lt_Some in Hk.
      apply (f_equal length) in Hrest. rewrite length_drop in Hrest.
      simpl in Hrest. lia.
    - assert (lines !! j = Some l) as Hl.
      { rewrite <- (Nat.add_0_r j), <- lookup_drop, <- Hrest. done. }
      simpl. destruct (decide (j = k)) as [->|Hne].
      + assert (l = lk) as -> by congruence. by rewrite Hparen.
      + rewrite (Hno j l) by (done || lia).
        apply IH; [lia| |].
        * rewrite <- (Nat.add_1_r j), <- drop_drop, <- Hrest. done.
        * intros j' l' Hj'. apply Hno. lia. }
  apply Hloop; [lia|done|]. intros j' l Hj'. apply Hbetween. lia.
Qed.

(** ** More about a live run and about contexts *)

(** X23. The status of an invocation does not take the return code of
    pytest into account: a live run whose output shows none of the known
    errors returns 0 whatever pytest returned. *)
Theorem live_run_status_ignores_return_code (a : args) (w : world)
    (rc : Z) (output : str) :
  run_pytest a = true → pytest w = Some (rc, output) →
  parse_output output = [] →
  ∃ w', main a w = (Returned 0, w').
Proof.
  intros Hrun Hpytest Hnone. unfold main, run_pytest_and_capture.
  rewrite Hrun. simpl. rewrite Hpytest, Hnone. eexists. reflexivity.
Qed.

(** X24. A live run records the return code of the pytest process in the
    report that it writes. *)
Theorem live_run_records_return_code (a : args) (w : world)
    (rc : Z) (output : str) :
  run_pytest a = true → pytest w = Some (rc, output) →
  ∃ status w' r,
    main a w = (Returned status, w') ∧
    files w' !! report_json_path w = Some (json_dumps (report_json r)) ∧
    issues r = parse_output output ∧
    return_code r = rc.
Proof.
  intros Hrun Hpytest.
  destruct (live_run_return_code a w rc output Hrun Hpytest)
    as (status & w' & r & ?). by exists status, w', r.
Qed.

Lemma lstrip_head (s : str) c s' : lstrip s = c :: s' → isspace c = false.
Proof.
  induction s as [|d s IH]; simpl; [done|].
  destruct (isspace d) eqn:Hd; [done|]. by intros [= <- _].
Qed.

Lemma lstrip_fixed (s : str) :
  (∀ c s', s = c :: s' → isspace c = false) → lstrip s = s.
Proof. destruct s as [|c s]; [done|]. intros H. simpl. by rewrite (H c s). Qed.

(** Stripping twice is stripping once. *)
Lemma strip_strip (s : str) : strip (strip s) = strip s.
Proof.
  unfold strip at 1. set (u := strip s).
  assert (lstrip (rev u) = rev u) as Hrev.
  { unfold u, strip, rstrip. rewrite rev_involutive. apply lstrip_fixed.
    intros c s' Hc. by eapply lstrip_head. }
  assert (lstrip u = u) as ->.
  { apply lstrip_fixed. intros c u' Hu.
    destruct (rstrip_prefix (lstrip s)) as [r Hr]. fold (strip s) in Hr.
    fold u in Hr. rewrite Hu in Hr. by eapply lstrip_head. }
  unfold rstrip. by rewrite Hrev, rev_involutive.
Qed.

(** X25. The context stored with an issue neither starts nor ends with
    white space: stripping it again changes nothing. *)
Theorem context_is_stripped (output : str) (i : issue) (ctx : str) :
  i ∈ parse_output output → dict_get i "context" = Some ctx →
  strip ctx = ctx.
Proof.
  intros (d & m & _ & _ & _ & Hctx)%parse_output_elem Hi.
  rewrite Hctx in Hi. injection Hi as <-. apply strip_strip.
Qed.

End Engine.

(** ** The claims at sample inputs *)

(** C5 at the marker log. *)
Lemma context_within_log_witness :
  ∃ d m, d ∈ registry ∧
    m ∈ finditer plain_isalnum plain_tolower d.1.1 marker_log ∧
    let a := m_start m - d.2 in
    let b := Nat.min (m_end m + 200) (length marker_log) in
    a ≤ b ≤ length marker_log ∧
    dict_get marker_issue "context"
    = Some (strip (take (b - a) (drop a marker_log))) ∧
    substring_of (strip (take (b - a) (drop a marker_log))) marker_log.
Proof.
  apply (context_within_log plain_isalnum plain_tolower marker_log marker_issue).
  vm_compute. apply list_elem_of_here.
Defined.

(** C4 at a log of three lines, the middle one the error. *)
Lemma restricted_python_once_witness :
  let output := codes "collecting ..." ++ [NEWLINE] ++ codes RESTRICTED
                ++ [NEWLINE] ++ codes "1 error" in
  ∃ i : issue,
    filter (fun i : issue => dict_get i "type" = Some (codes "MissingDependency"))
           (parse_output plain_isalnum plain_tolower output) = [i] ∧
    dict_get i "severity" = Some (codes "HIGH") ∧
    dict_get i "dependency" = Some (codes "RestrictedPython").
Proof.
  intros output.
  apply (restricted_python_once plain_isalnum plain_tolower output).
  vm_compute. reflexivity.
Defined.

(** C7 (amended) at a log where the import error follows two characters. *)
Lemma foo_import_reported_witness :
  ∃ i : issue,
    i ∈ parse_output plain_isalnum plain_tolower
          (codes "E " ++ codes FOO_IMPORT ++ codes " (tests/test_a.py)") ∧
    dict_get i "type" = Some (codes "ImportError") ∧
    dict_get i "imported_name" = Some (codes "Foo") ∧
    dict_get i "from_module" = Some (codes "pkg.bar").
Proof.
  apply (foo_import_reported plain_isalnum plain_tolower
           (codes "E ") (codes " (tests/test_a.py)")).
  intros q e mk Hq.
  assert (q = 0 ∨ q = 1) as [-> | ->] by (vm_compute in Hq; lia);
    vm_compute; discriminate.
Defined.

(** C7 as stated fails: in [nested_import_log] the string is written, but
    the one match of the import pattern starts before it and ends at its
    first quote, so the only issue names X. *)
Lemma foo_import_counterexample :
  substring_of (codes FOO_IMPORT) nested_import_log ∧
  ∀ isalnum tolower,
    ¬ ∃ i : issue,
        i ∈ parse_output isalnum tolower nested_import_log ∧
        dict_get i "type" = Some (codes "ImportError") ∧
        dict_get i "imported_name" = Some (codes "Foo") ∧
        dict_get i "from_module" = Some (codes "pkg.bar").
Proof.
  split.
  - exists (codes "ImportError: cannot import name 'X' from '"), [].
    vm_compute. reflexivity.
  - intros isalnum tolower (i & Hin & _ & Hname & _).
    vm_compute in Hin. apply list_elem_of_singleton in Hin. subst i.
    vm_compute in Hname. discriminate.
Qed.

(** C6 at an invocation without arguments. *)
Lemma neither_origin_fails_witness :
  ∃ w', main plain_isalnum plain_tolower
             {| run_pytest := false; pytest_log := None |}
             (sample_world marker_log) = (SysExit 2, w') ∧
        files w' = files (sample_world marker_log) ∧
        (2 ≠ 0)%Z ∧
        ∀ a2 w2 status w2',
          main plain_isalnum plain_tolower a2 w2 = (Returned status, w2') →
          (status ≠ 2)%Z.
Proof.
  apply (neither_origin_fails plain_isalnum plain_tolower
           {| run_pytest := false; pytest_log := None |}
           (sample_world marker_log)); reflexivity.
Defined.

(** C9 at an invocation on the marker log. *)
Lemma log_file_return_code_witness :
  ∃ status w' r,
    main plain_isalnum plain_tolower
         {| run_pytest := false; pytest_log := Some "pytest.log" |}
         (sample_world marker_log) = (Returned status, w') ∧
    files w' !! "/repo/diagnostics/report.json"
      = Some (json_dumps (report_json r)) ∧
    issues r = parse_output plain_isalnum plain_tolower marker_log ∧
    return_code r = 0%Z.
Proof.
  apply (log_file_return_code plain_isalnum plain_tolower
           {| run_pytest := false; pytest_log := Some "pytest.log" |}
           (sample_world marker_log) "pytest.log" marker_log);
    [reflexivity|reflexivity|discriminate|vm_compute; reflexivity].
Defined.

(** ** The further properties at sample inputs *)

(** X1 at an invocation on the marker log. *)
Lemma returned_status_matches_report_witness :
  let a := {| run_pytest := false; pytest_log := Some "pytest.log" |} in
  let w := sample_world marker_log in
  let w' := (main plain_isalnum plain_tolower a w).2 in
  ∃ r : report,
    files w'
    = <[report_txt_path w := join [NEWLINE] (txt_lines r (return_code r))]>
        (<[report_json_path w := json_dumps (report_json r)]> (files w)) ∧
    timestamp r = utcnow w ∧
    stderr w' = stderr w ∧
    (1%Z = 0%Z ∧ total_issues r = 0 ∨ 1%Z = 1%Z ∧ 0 < total_issues r).
Proof.
  intros a w w'.
  apply (returned_status_matches_report plain_isalnum plain_tolower a w 1 w').
  vm_compute. reflexivity.
Defined.

(** X2 at a path that the sample world does not hold. *)
Lemma missing_log_file_witness :
  let a := {| run_pytest := false; pytest_log := Some "missing.log" |} in
  let w := sample_world marker_log in
  ∃ w', main plain_isalnum plain_tolower a w = (SysExit 1, w') ∧
        files w' = files w ∧
        stdout w' = stdout w ∧
        stderr w' = stderr w ++ [codes "[ERROR] Лог не найден: "
                                 ++ codes "missing.log"].
Proof.
  intros a w.
  apply (missing_log_file plain_isalnum plain_tolower a w "missing.log");
    [reflexivity|reflexivity|discriminate|vm_compute; reflexivity].
Defined.

(** X3 at an invocation with both flags. *)
Lemma run_pytest_ignores_log_witness :
  let a := {| run_pytest := true; pytest_log := Some "pytest.log" |} in
  main plain_isalnum plain_tolower a (sample_world marker_log)
  = main plain_isalnum plain_tolower
         {| run_pytest := true; pytest_log := None |}
         (sample_world marker_log).
Proof.
  intros a.
  apply (run_pytest_ignores_log plain_isalnum plain_tolower a
           (sample_world marker_log)).
  reflexivity.
Defined.

(** X5 at an invocation without arguments. *)
Lemma stopped_run_writes_nothing_witness :
  let a := {| run_pytest := false; pytest_log := None |} in
  let w := sample_world marker_log in
  files (main plain_isalnum plain_tolower a w).2 = files w.
Proof.
  intros a w.
  apply (stopped_run_writes_nothing plain_isalnum plain_tolower a w (SysExit 2)).
  - vm_compute. reflexivity.
  - intros status. discriminate.
Defined.


(** X8 at the marker detector and the marker log. *)
Lemma kind_reported_iff_witness :
  (∃ i : issue,
     i ∈ parse_output plain_isalnum plain_tolower marker_log ∧
     dict_get i "type" = Some (codes "UnknownPytestMarker")) ↔
  ∃ q, q ≤ length marker_log ∧
       match_at plain_isalnum plain_tolower marker_re marker_log q ≠ None.
Proof.
  apply (kind_reported_iff plain_isalnum plain_tolower marker_log
           (marker_re, "UnknownPytestMarker", 200)).
  vm_compute. do 3 apply list_elem_of_further. apply list_elem_of_here.
Defined.

(** X12 at the terminated error line. *)
Lemma optional_needs_newline_witness : NEWLINE ∈ optional_log.
Proof.
  apply (optional_needs_newline plain_isalnum plain_tolower
           optional_log optional_issue).
  - vm_compute. apply list_elem_of_here.
  - reflexivity.
Defined.

(** X13 at the error line in capitals. *)
Lemma optional_any_case_witness :
  ∃ i : issue,
    i ∈ parse_output plain_isalnum plain_tolower
          (codes "E   " ++ codes "NAMEERROR: NAME 'OPTIONAL' IS NOT DEFINED"
           ++ [NEWLINE]) ∧
    dict_get i "type" = Some (codes "MissingOptionalImport").
Proof.
  apply (optional_any_case plain_isalnum plain_tolower (codes "E   ")
           (codes "NAMEERROR: NAME 'OPTIONAL' IS NOT DEFINED") [NEWLINE]).
  - apply Forall_forall. intros c Hc. vm_compute in Hc.
    repeat (apply elem_of_cons in Hc as [->|Hc]; [reflexivity|]).
    by apply elem_of_nil in Hc.
  - vm_compute. reflexivity.
  - apply list_elem_of_here.
Defined.

(** X15 at the sample import error. *)
Lemma import_issue_fields_witness :
  ∃ name module : str,
    dict_get foo_import_issue "imported_name" = Some name ∧
    dict_get foo_import_issue "from_module" = Some module ∧
    dict_get foo_import_issue "fix"
    = Some (codes "Проверить экспорт '" ++ name
            ++ codes "' из модуля '" ++ module ++ codes "'") ∧
    name ≠ [] ∧ Forall (fun c => isword plain_isalnum c = true) name ∧
    module ≠ [] ∧ (QUOTE ∉ module) ∧
    substring_of (codes IMPORT_PREFIX ++ name ++ codes "' from '"
                  ++ module ++ codes "'") (codes FOO_IMPORT).
Proof.
  apply (import_issue_fields plain_isalnum plain_tolower
           (codes FOO_IMPORT) foo_import_issue).
  - vm_compute. apply list_elem_of_here.
  - reflexivity.
Defined.


(** X20 at a text without typing import. *)
Lemma fix_imports_inserts_after_imports_witness :
  let lines := split_lines no_typing_text in
  ∃ k, fix_imports plain_isalnum plain_tolower no_typing_text
       = (join [NEWLINE] (take k lines ++ [OPTIONAL_IMPORT] ++ drop k lines),
          true) ∧
    k ≤ 50 ∧ k ≤ length lines ∧
    Forall (fun l => leading_line l = true) (take k lines) ∧
    (k = 0 ∨ ∃ l, lines !! (k - 1) = Some l ∧ import_line l = true).
Proof.
  apply (fix_imports_inserts_after_imports plain_isalnum plain_tolower
           no_typing_text).
  vm_compute. repeat constructor.
Defined.

(** X21 at a text whose second line is a typing import. *)
Lemma fix_imports_extends_import_witness :
  fix_imports plain_isalnum plain_tolower typing_list_text
  = (join [NEWLINE]
       (<[1 := rstrip (codes "from typing import List  ")
               ++ codes ", Optional"]> (split_lines typing_list_text)),
     true).
Proof.
  apply (fix_imports_extends_import plain_isalnum plain_tolower
           typing_list_text 1 (codes "from typing import List  ")).
  - vm_compute. reflexivity.
  - lia.
  - intros j l Hj. assert (j = 0) as -> by lia.
    vm_compute. intros [= <-]. reflexivity.
  - vm_compute. reflexivity.
  - vm_compute. reflexivity.
  - vm_compute. reflexivity.
Defined.

(** X22 at a text whose typing import ends with a closing parenthesis. *)
Lemma fix_imports_changes_later_line_witness :
  fix_imports plain_isalnum plain_tolower typing_paren_text
  = (join [NEWLINE]
       (<[1 := replace_char (codes "def f(): pass") CLOSE_PAREN
                 (codes ", Optional)")]> (split_lines typing_paren_text)),
     true).
Proof.
  apply (fix_imports_changes_later_line plain_isalnum plain_tolower
           typing_paren_text 0 1
           (codes "from typing import (List, Dict)") (codes "def f(): pass")).
  - vm_compute. reflexivity.
  - lia.
  - intros j l Hj. lia.
  - vm_compute. reflexivity.
  - vm_compute. reflexivity.
  - vm_compute. reflexivity.
  - lia.
  - vm_compute. reflexivity.
  - vm_compute. reflexivity.
  - intros j l Hj. lia.
Defined.

(** A world in which pytest fails and prints nothing that is known. *)
Lemma live_run_status_ignores_return_code_witness :
  let w := {| ROOT := "/repo"; files := ∅; stdout := []; stderr := [];
              pytest := Some (1%Z, codes "1 failed");
              utcnow := codes "2024-01-01T00:00:00" |} in
  ∃ w', main plain_isalnum plain_tolower
             {| run_pytest := true; pytest_log := None |} w
        = (Returned 0, w').
Proof.
  intros w.
  apply (live_run_status_ignores_return_code plain_isalnum plain_tolower
           {| run_pytest := true; pytest_log := None |} w 1 (codes "1 failed"));
    [reflexivity|reflexivity|vm_compute; reflexivity].
Defined.

(** X24 in the same world. *)
Lemma live_run_records_return_code_witness :
  let w := {| ROOT := "/repo"; files := ∅; stdout := []; stderr := [];
              pytest := Some (1%Z, codes "1 failed");
              utcnow := codes "2024-01-01T00:00:00" |} in
  ∃ status w' r,
    main plain_isalnum plain_tolower
         {| run_pytest := true; pytest_log := None |} w
    = (Returned status, w') ∧
    files w' !! report_json_path w = Some (json_dumps (report_json r)) ∧
    issues r = parse_output plain_isalnum plain_tolower (codes "1 failed") ∧
    return_code r = 1%Z.
Proof.
  intros w.
  apply (live_run_records_return_code plain_isalnum plain_tolower
           {| run_pytest := true; pytest_log := None |} w 1 (codes "1 failed"));
    reflexivity.
Defined.

(** X25 at the marker log. *)
Lemma context_is_stripped_witness : strip marker_log = marker_log.
Proof.
  apply (context_is_stripped plain_isalnum plain_tolower
           marker_log marker_issue marker_log).
  - vm_compute. apply list_elem_of_here.
  - reflexivity.
Defined.
